(** * Hangman: game-session logic, hint provider and leaderboard read

    A shallow embedding of [hangman.py].  The Streamlit session dictionary
    [st.session_state.game] becomes the record [game], threaded explicitly
    through the functions that mutate it.  The two external collaborators
    (the chat-completion API and the Firestore collection) are oracles, and
    what a function shows to the user or does to the clock is recorded as a
    list of [event]s returned next to its result.  The [st.cache_data]
    decorators are not modelled: every function below is the decorated
    body. *)

From Stdlib Require Import ZArith List String Ascii Bool Lia.
Import ListNotations.

Local Open Scope string_scope.
Local Open Scope Z_scope.

(** ** Python built-ins used by the program *)

(** [sub in s] on two [str] values: the substring test. *)
Fixpoint str_in (sub s : string) : bool :=
  String.prefix sub s ||
  match s with
  | EmptyString => false
  | String _ s' => str_in sub s'
  end.

(** [x in l] on a list of [str]: membership by [==]. *)
Definition list_in (x : string) (l : list string) : bool :=
  existsb (String.eqb x) l.

(** Iterating over a [str] yields its characters as one-character strings. *)
Definition char_str (c : ascii) : string := String c EmptyString.

Definition chars (s : string) : list string :=
  map char_str (list_ascii_of_string s).

(** [str.isspace] on the ASCII range: tab, line feed, vertical tab, form
    feed, carriage return, the four separators 28-31 and the space. *)
Definition is_space (c : ascii) : bool :=
  let n := nat_of_ascii c in
  ((9 <=? n) && (n <=? 13) || (28 <=? n) && (n <=? 32))%nat.

Fixpoint lstrip (s : string) : string :=
  match s with
  | EmptyString => EmptyString
  | String c s' => if is_space c then lstrip s' else s
  end.

Fixpoint rstrip (s : string) : string :=
  match s with
  | EmptyString => EmptyString
  | String c s' =>
      match rstrip s' with
      | EmptyString => if is_space c then EmptyString else char_str c
      | r => String c r
      end
  end.

Definition strip (s : string) : string := rstrip (lstrip s).

(** ** Observable effects *)

Inductive event : Type :=
| Request (prompt : string)      (* one chat-completion call *)
| Sleep (seconds : Z)            (* time.sleep *)
| StError (msg : string)         (* st.error *)
| StWarning (msg : string)       (* st.warning *)
| StInfo (msg : string).         (* st.info *)

(** A computation that returns a value and logs events, in order. *)
Definition Eff (A : Type) : Type := (A * list event)%type.

Definition ret {A} (a : A) : Eff A := (a, []).

Definition bind {A B} (m : Eff A) (k : A -> Eff B) : Eff B :=
  let '(a, t1) := m in
  let '(b, t2) := k a in
  (b, (t1 ++ t2)%list).

Definition emit (e : event) : Eff unit := (tt, [e]).

Declare Scope eff_scope.
Delimit Scope eff_scope with eff.
Notation "x <- m ;; k" := (bind m (fun x => k))
  (at level 61, m at next level, right associativity) : eff_scope.
Notation "m ;;; k" := (bind m (fun _ => k))
  (at level 61, right associativity) : eff_scope.

(** ** Session state *)

Record game : Type := mkGame {
  word : string;
  guessed_letters : list string;
  attempts : Z;
  score : Z;
  game_over : bool;
  hint_used : bool;
  fun_fact : string
}.

(** The dictionary installed when the session has no ['game'] key yet. *)
Definition initial_game : game :=
  {| word := ""; guessed_letters := []; attempts := 6; score := 0;
     game_over := false; hint_used := false; fun_fact := "" |}.

Definition set_guessed_letters (l : list string) (g : game) : game :=
  {| word := word g; guessed_letters := l; attempts := attempts g;
     score := score g; game_over := game_over g; hint_used := hint_used g;
     fun_fact := fun_fact g |}.

Definition set_attempts (a : Z) (g : game) : game :=
  {| word := word g; guessed_letters := guessed_letters g; attempts := a;
     score := score g; game_over := game_over g; hint_used := hint_used g;
     fun_fact := fun_fact g |}.

Definition set_score (n : Z) (g : game) : game :=
  {| word := word g; guessed_letters := guessed_letters g;
     attempts := attempts g; score := n; game_over := game_over g;
     hint_used := hint_used g; fun_fact := fun_fact g |}.

Definition set_game_over (b : bool) (g : game) : game :=
  {| word := word g; guessed_letters := guessed_letters g;
     attempts := attempts g; score := score g; game_over := b;
     hint_used := hint_used g; fun_fact := fun_fact g |}.

Definition set_hint_used (b : bool) (g : game) : game :=
  {| word := word g; guessed_letters := guessed_letters g;
     attempts := attempts g; score := score g; game_over := game_over g;
     hint_used := b; fun_fact := fun_fact g |}.

(** ** Hint provider: [get_ai_content] *)

(** What one chat-completion attempt does: it yields the message content,
    or something inside the [try] block raises. *)
Inductive api_outcome : Type :=
| Completed (content : string)
| Raised (err : string).

(** The service, as seen by one call of [get_ai_content]: the outcome of the
    [i]-th attempt (counted from 0) for a prompt. *)
Definition provider : Type := string -> nat -> api_outcome.

Definition fallback : string :=
  "Temporary hint unavailable. Try guessing letters!".

(** The [for _ in range(max_retries)] loop, [n] iterations left, [i] done. *)
Fixpoint retry_loop (p : provider) (prompt : string) (i n : nat) : Eff string :=
  match n with
  | O => ret fallback
  | S n' =>
      (emit (Request prompt) ;;;
       match p prompt i with
       | Completed content => ret (strip content)
       | Raised e =>
           emit (StError ("AI service error: " ++ e)) ;;;
           emit (Sleep 2) ;;;
           retry_loop p prompt (S i) n'
       end)%eff
  end.

Definition get_ai_content (p : provider) (prompt : string) (max_retries : Z)
  : Eff string :=
  retry_loop p prompt 0 (Z.to_nat max_retries).

Definition get_ai_hint (p : provider) (g : game) : Eff string :=
  get_ai_content p
    ("Give a subtle hint about " ++ word g ++
     " without revealing it. Max 10 words.") 3.

Definition get_fun_fact (p : provider) (g : game) : Eff string :=
  get_ai_content p
    ("Tell an interesting fact about " ++ word g ++ " in 15 words or less.") 3.

(** ** Score store: [get_leaderboard] *)

Record score_entry : Type := mkEntry {
  entry_name : string;
  entry_score : Z;
  entry_timestamp : Z
}.

(** What iterating [scores_ref.stream()] does: it ends, yields a document
    and goes on, or raises part-way. *)
Inductive doc_stream : Type :=
| StreamEnd
| StreamYield (d : score_entry) (rest : doc_stream)
| StreamRaise (err : string).

(** Building the query may raise before any document is read. *)
Inductive query_result : Type :=
| QueryRaise (err : string)
| QueryStream (s : doc_stream).

(** The store: what the query with a given limit does. *)
Definition store : Type := Z -> query_result.

(** The list comprehension over the stream: all documents, or the
    exception that interrupted it. *)
Fixpoint collect (s : doc_stream) : string + list score_entry :=
  match s with
  | StreamEnd => inr []
  | StreamYield d rest =>
      match collect rest with
      | inl e => inl e
      | inr ds => inr (d :: ds)
      end
  | StreamRaise e => inl e
  end.

Definition read_scores (db : store) (limit : Z) : string + list score_entry :=
  match db limit with
  | QueryRaise e => inl e
  | QueryStream s => collect s
  end.

Definition get_leaderboard (db : store) (limit : Z) : Eff (list score_entry) :=
  match read_scores db limit with
  | inr docs => ret docs
  | inl e => (emit (StError ("Leaderboard error: " ++ e)) ;;; ret [])%eff
  end.

(** A store holding no score at all. *)
Definition empty_store : store := fun _ => QueryStream StreamEnd.

(** ** Game logic *)

(** [new_game]: [w] is the value returned by the word-selection function
    [get_ai_word(category, difficulty)], which is not part of the file.  The
    dictionary literal calls [get_fun_fact()] before the assignment, hence
    on the game being replaced. *)
Definition fresh_round (w f : string) : game :=
  {| word := w; guessed_letters := []; attempts := 6; score := 0;
     game_over := false; hint_used := false; fun_fact := f |}.

Definition new_game (w : string) (p : provider) (old : game) : Eff game :=
  (f <- get_fun_fact p old ;; ret (fresh_round w f))%eff.

(** [all(c in game['guessed_letters'] for c in game['word'])] *)
Definition all_guessed (g : game) : bool :=
  forallb (fun c => list_in c (guessed_letters g)) (chars (word g)).

Definition win_score (g : game) : Z :=
  attempts g * 10 + (if negb (hint_used g) then 5 else 0).

Definition check_guess (letter : string) (game0 : game) : game :=
  let game1 :=
    if negb (list_in letter (guessed_letters game0)) then
      let g := set_guessed_letters (guessed_letters game0 ++ [letter])%list game0 in
      if negb (str_in letter (word g)) then set_attempts (attempts g - 1) g
      else g
    else game0 in
  if (attempts game1 <=? 0) || all_guessed game1 then
    let g := set_game_over true game1 in
    if attempts g >? 0 then set_score (win_score g) g else g
  else game1.

(** [show_hint_section]: [clicked] is what [st.button] returns when the
    button is rendered. *)
Definition show_hint_section (p : provider) (clicked : bool) (g : game)
  : Eff game :=
  if negb (game_over g) && negb (hint_used g) then
    if clicked then
      if attempts g >? 2 then
        let g1 := set_attempts (attempts g - 2) g in
        let g2 := set_hint_used true g1 in
        (h <- get_ai_hint p g2 ;;
         emit (StInfo ("Hint: " ++ h)) ;;;
         ret g2)%eff
      else
        (emit (StWarning "Not enough attempts for a hint!") ;;; ret g)%eff
    else ret g
  else ret g.

(** ** Rounds *)

(** The two operations that act on a running round. *)
Inductive op : Type :=
| Guess (letter : string)
| Hint (p : provider) (clicked : bool).

Definition step (o : op) (g : game) : game :=
  match o with
  | Guess letter => check_guess letter g
  | Hint p clicked => fst (show_hint_section p clicked g)
  end.

Definition run (ops : list op) (g : game) : game :=
  fold_left (fun g o => step o g) ops g.

(** States of the round that [new_game] opened on word [w] with fact [f]. *)
Inductive in_round (w f : string) : game -> Prop :=
| round_start : in_round w f (fresh_round w f)
| round_step (o : op) (g : game) :
    in_round w f g -> in_round w f (step o g).

(** The end-of-round test of [check_guess], as a proposition. *)
Definition word_complete (g : game) : Prop :=
  forall c, In c (chars (word g)) -> In c (guessed_letters g).

Definition end_condition (g : game) : Prop :=
  attempts g <= 0 \/ word_complete g.

(** Number of chat-completion calls in a log. *)
Fixpoint requests (t : list event) : nat :=
  match t with
  | [] => 0
  | Request _ :: t' => S (requests t')
  | _ :: t' => requests t'
  end.

(** The log of [k] failed attempts in a row, with their error texts. *)
Definition failed_attempts (prompt : string) (errs : list string) : list event :=
  flat_map (fun e => [Request prompt; StError ("AI service error: " ++ e); Sleep 2])
           errs.

(** The stream raises before it ends. *)
Fixpoint stream_raises (s : doc_stream) : bool :=
  match s with
  | StreamEnd => false
  | StreamYield _ rest => stream_raises rest
  | StreamRaise _ => true
  end.

Definition read_fails (db : store) (limit : Z) : bool :=
  match db limit with
  | QueryRaise _ => true
  | QueryStream s => stream_raises s
  end.

(** ** Sample runs *)

Definition guess_all (letters : list string) (g : game) : game :=
  run (map Guess letters) g.

Definition no_service : provider := fun _ _ => Raised "offline".

Definition good_service : provider := fun _ _ => Completed " It purrs. ".

(** A service that fails twice and then answers. *)
Definition slow_service : provider :=
  fun _ i => if (i <? 2)%nat then Raised "rate limit" else Completed "A pet.".

(** A store whose stream yields one document and then raises. *)
Definition flaky_store : store :=
  fun _ => QueryStream (StreamYield (mkEntry "ann" 65 1)
                                    (StreamRaise "deadline exceeded")).

(** ** The two halves of [check_guess] *)

(** Lines 93-96: record the letter. *)
Definition record_guess (letter : string) (g : game) : game :=
  if list_in letter (guessed_letters g) then g
  else
    let g1 := set_guessed_letters (guessed_letters g ++ [letter])%list g in
    if str_in letter (word g) then g1 else set_attempts (attempts g - 1) g1.

(** Lines 99-102: the win/lose evaluation. *)
Definition settle (g : game) : game :=
  if (attempts g <=? 0) || all_guessed g then
    if attempts g >? 0 then set_score (win_score g) (set_game_over true g)
    else set_game_over true g
  else g.

(** What holds of every state of a round: while the round is open nothing
    is scored and an attempt is left; once it is over the end condition
    holds and a positive number of attempts goes with the win score. *)
Record round_inv (g : game) : Prop := {
  inv_open_score : game_over g = false -> score g = 0;
  inv_open_attempts : game_over g = false -> 0 < attempts g;
  inv_open_complete :
    game_over g = false -> word_complete g ->
    4 <= attempts g /\ (hint_used g = false -> 6 <= attempts g);
  inv_over_end : game_over g = true -> end_condition g;
  inv_over_score :
    game_over g = true -> 0 < attempts g -> score g = win_score g
}.

(** The two outcomes of a round, as the specification words them: won
    when every character of the word has been guessed, lost when the
    attempts are exhausted and the round is not won. *)
Definition won (g : game) : Prop := word_complete g.

Definition lost (g : game) : Prop := attempts g <= 0 /\ ~ word_complete g.

(** ** Saving a score and the end-of-round screen *)

(** What the screen functions do, in order: the widgets they draw, the
    document they write, and the messages of the functions they call.  Each
    drawing constructor stands for one formatted [st.*] call and carries the
    values interpolated into its text. *)
Inductive action : Type :=
| Balloons                                   (* st.balloons *)
| WonBanner (shown_score : Z)                (* st.success, "You Won! Score: .." *)
| NameInput                                  (* st.text_input, max_chars=15 *)
| LostBanner (shown_word : string)           (* st.error, "The word was: .." *)
| FunFactLine (fact : string)                (* st.write, "Fun Fact: .." *)
| LeaderboardHeader                          (* st.subheader *)
| ScoreLine (rank : nat) (name : string) (points : Z)   (* "{i}. {name} - {score}" *)
| NoScores                                   (* st.write, "No scores yet!" *)
| Saved (name : string) (points : Z)         (* doc_ref.set, server timestamp *)
| CacheCleared                               (* st.cache_data.clear *)
| Logged (e : event).

(** What creating the document and [doc_ref.set] do for a name and score. *)
Inductive write_outcome : Type :=
| Written
| WriteRaise (err : string).

Definition writer : Type := string -> Z -> write_outcome.

(** [save_score]: [name[:15]] is the first 15 characters (all of a shorter
    name). *)
Definition save_score (w : writer) (name : string) (points : Z) : list action :=
  let doc_name := substring 0 15 name in
  match w doc_name points with
  | Written => [Saved doc_name points; CacheCleared]
  | WriteRaise e => [Logged (StError ("Failed to save score: " ++ e))]
  end.

(** [for i, entry in enumerate(leaderboard, 1)]; an entry has both keys. *)
Fixpoint score_lines (rank : nat) (l : list score_entry) : list action :=
  match l with
  | [] => []
  | d :: l' => ScoreLine rank (entry_name d) (entry_score d)
                 :: score_lines (S rank) l'
  end.

(** The leaderboard column; [get_leaderboard()] uses its default limit. *)
Definition show_leaderboard_column (db : store) : list action :=
  let '(leaderboard, t) := get_leaderboard db 10 in
  (map Logged t ++
   match leaderboard with
   | [] => [NoScores]
   | _ :: _ => score_lines 1 leaderboard
   end)%list.

(** [show_game_over]: [player_name] is the text in the input box and
    [submit] what the "Submit Score" button returns. *)
Definition show_game_over (w : writer) (db : store)
    (player_name : string) (submit : bool) (g : game) : list action :=
  ((if attempts g >? 0 then
      Balloons :: WonBanner (score g) :: NameInput ::
      (if submit && negb (player_name =? "")%string
       then save_score w player_name (score g) else [])
    else [LostBanner (word g); FunFactLine (fun_fact g)]) ++
   LeaderboardHeader :: show_leaderboard_column db)%list.

(** ** Measures on states and logs *)

(** The guessed letters that are not in the word. *)
Definition wrong_letters (g : game) : list string :=
  filter (fun l => negb (str_in l (word g))) (guessed_letters g).

(** Seconds slept in a log. *)
Fixpoint slept (t : list event) : Z :=
  match t with
  | [] => 0
  | Sleep n :: t' => n + slept t'
  | _ :: t' => slept t'
  end.

(** Error messages shown in a log. *)
Fixpoint errors_shown (t : list event) : nat :=
  match t with
  | [] => 0
  | StError _ :: t' => S (errors_shown t')
  | _ :: t' => errors_shown t'
  end.

(** The prompts of the requests of a log. *)
Fixpoint prompts (t : list event) : list string :=
  match t with
  | [] => []
  | Request q :: t' => q :: prompts t'
  | _ :: t' => prompts t'
  end.

(** Whitespace at the two ends of a string. *)
Definition head_space (s : string) : bool :=
  match s with
  | EmptyString => false
  | String c _ => is_space c
  end.

Fixpoint last_space (s : string) : bool :=
  match s with
  | EmptyString => false
  | String c EmptyString => is_space c
  | String _ s' => last_space s'
  end.

(** The documents a stream yields before it ends or raises. *)
Fixpoint yielded (s : doc_stream) : list score_entry :=
  match s with
  | StreamYield d rest => d :: yielded rest
  | _ => []
  end.

(** A stream that yields the given documents and ends. *)
Fixpoint stream_of (docs : list score_entry) : doc_stream :=
  match docs with
  | [] => StreamEnd
  | d :: docs' => StreamYield d (stream_of docs')
  end.

(** A store that always writes, and one that never does. *)
Definition good_writer : writer := fun _ _ => Written.

Definition bad_writer : writer := fun _ _ => WriteRaise "permission denied".

(** A store whose query yields two documents. *)
Definition two_scores : store :=
  fun _ => QueryStream (stream_of [mkEntry "ann" 65 2; mkEntry "bob" 40 1]).

(** * Proofs *)

(** ** Sample runs, evaluated *)

Example python_round :
  let g := guess_all ["P"; "Y"; "T"; "H"; "O"; "N"] (fresh_round "PYTHON" "") in
  game_over g = true /\ score g = 65 /\ attempts g = 6.
Proof. vm_compute. repeat split. Qed.

Example cat_lost_round :
  let g := guess_all ["X"; "Q"; "Z"; "J"; "W"; "V"] (fresh_round "CAT" "") in
  game_over g = true /\ score g = 0 /\ attempts g = 0.
Proof. vm_compute. repeat split. Qed.

Example hint_then_win :
  let g := run (Hint good_service true :: map Guess ["C"; "A"; "T"])
               (fresh_round "CAT" "") in
  game_over g = true /\ hint_used g = true /\ attempts g = 4 /\ score g = 40.
Proof. vm_compute. repeat split. Qed.

Example hint_log :
  snd (show_hint_section good_service true (fresh_round "CAT" "")) =
  [Request "Give a subtle hint about CAT without revealing it. Max 10 words.";
   StInfo "Hint: It purrs."].
Proof. vm_compute. reflexivity. Qed.

Example slow_service_log :
  get_ai_content slow_service "q" 3 =
  ("A pet.",
   [Request "q"; StError "AI service error: rate limit"; Sleep 2;
    Request "q"; StError "AI service error: rate limit"; Sleep 2;
    Request "q"]).
Proof. vm_compute. reflexivity. Qed.

Example no_service_log :
  get_ai_content no_service "q" 3 =
  (fallback,
   [Request "q"; StError "AI service error: offline"; Sleep 2;
    Request "q"; StError "AI service error: offline"; Sleep 2;
    Request "q"; StError "AI service error: offline"; Sleep 2]).
Proof. vm_compute. reflexivity. Qed.

Example flaky_store_read :
  get_leaderboard flaky_store 10 =
  ([], [StError "Leaderboard error: deadline exceeded"]).
Proof. vm_compute. reflexivity. Qed.

Example hint_refused_at_two :
  show_hint_section good_service true (set_attempts 2 (fresh_round "CAT" "")) =
  (set_attempts 2 (fresh_round "CAT" ""),
   [StWarning "Not enough attempts for a hint!"]).
Proof. vm_compute. reflexivity. Qed.

(** ** Python built-ins *)

Lemma list_in_iff (x : string) (l : list string) :
  list_in x l = true <-> In x l.
Proof.
  unfold list_in. rewrite existsb_exists. split.
  - intros [y [Hy Heq]]. apply String.eqb_eq in Heq. now subst.
  - intros H. exists x. split; [assumption | apply String.eqb_refl].
Qed.

Lemma list_in_false_iff (x : string) (l : list string) :
  list_in x l = false <-> ~ In x l.
Proof.
  rewrite <- list_in_iff. destruct (list_in x l); split; congruence.
Qed.

Lemma all_guessed_iff (g : game) :
  all_guessed g = true <-> word_complete g.
Proof.
  unfold all_guessed, word_complete. rewrite forallb_forall.
  split; intros H c Hc; specialize (H c Hc); now apply list_in_iff.
Qed.

Lemma all_guessed_false_iff (g : game) :
  all_guessed g = false <-> ~ word_complete g.
Proof.
  rewrite <- all_guessed_iff. destruct (all_guessed g); split; congruence.
Qed.

Lemma prefix_char_str (c : ascii) (s : string) :
  String.prefix (char_str c) (String c s) = true.
Proof.
  unfold char_str. simpl. destruct (ascii_dec c c); [| congruence].
  now destruct s.
Qed.

(** A character of the word is a substring of it. *)
Lemma char_str_in (c : string) (w : string) :
  In c (chars w) -> str_in c w = true.
Proof.
  unfold chars. induction w as [| a w IH]; intros H; simpl in H; [tauto |].
  destruct H as [<- | H]; cbn [str_in].
  - rewrite prefix_char_str. reflexivity.
  - rewrite (IH H). apply orb_true_r.
Qed.

(** ** Field-by-field behaviour of [check_guess] *)

Lemma check_guess_split (letter : string) (g : game) :
  check_guess letter g = settle (record_guess letter g).
Proof.
  unfold check_guess, settle, record_guess.
  destruct (list_in letter (guessed_letters g)); simpl;
    [| destruct (str_in letter (word g)); simpl];
    repeat match goal with
           | |- context [if ?b then _ else _] => destruct b
           end; reflexivity.
Qed.

Lemma record_guess_frame (letter : string) (g : game) :
  word (record_guess letter g) = word g /\
  score (record_guess letter g) = score g /\
  game_over (record_guess letter g) = game_over g /\
  hint_used (record_guess letter g) = hint_used g /\
  fun_fact (record_guess letter g) = fun_fact g.
Proof.
  unfold record_guess.
  destruct (list_in letter (guessed_letters g));
    [| destruct (str_in letter (word g))]; simpl; repeat split.
Qed.

Lemma record_guess_attempts (letter : string) (g : game) :
  attempts (record_guess letter g) =
  if list_in letter (guessed_letters g) || str_in letter (word g)
  then attempts g else attempts g - 1.
Proof.
  unfold record_guess.
  destruct (list_in letter (guessed_letters g));
    [| destruct (str_in letter (word g))]; reflexivity.
Qed.

Lemma record_guess_letters (letter : string) (g : game) :
  guessed_letters (record_guess letter g) =
  if list_in letter (guessed_letters g) then guessed_letters g
  else (guessed_letters g ++ [letter])%list.
Proof.
  unfold record_guess.
  destruct (list_in letter (guessed_letters g));
    [| destruct (str_in letter (word g))]; reflexivity.
Qed.

Lemma settle_frame (g : game) :
  word (settle g) = word g /\
  guessed_letters (settle g) = guessed_letters g /\
  attempts (settle g) = attempts g /\
  hint_used (settle g) = hint_used g /\
  fun_fact (settle g) = fun_fact g.
Proof.
  unfold settle.
  destruct ((attempts g <=? 0) || all_guessed g);
    [destruct (attempts g >? 0) |]; simpl; repeat split.
Qed.

Lemma settle_game_over (g : game) :
  game_over (settle g) = (attempts g <=? 0) || all_guessed g || game_over g.
Proof.
  unfold settle.
  destruct ((attempts g <=? 0) || all_guessed g);
    [destruct (attempts g >? 0) |]; reflexivity.
Qed.

Lemma settle_score (g : game) :
  score (settle g) =
  if ((attempts g <=? 0) || all_guessed g) && (attempts g >? 0)
  then win_score g else score g.
Proof.
  unfold settle.
  destruct ((attempts g <=? 0) || all_guessed g);
    [destruct (attempts g >? 0) |]; reflexivity.
Qed.

Lemma settle_win_score (g : game) : win_score (settle g) = win_score g.
Proof.
  unfold win_score.
  destruct (settle_frame g) as (_ & _ & -> & -> & _). reflexivity.
Qed.

Lemma settle_word_complete (g : game) :
  word_complete (settle g) <-> word_complete g.
Proof.
  unfold word_complete.
  destruct (settle_frame g) as (-> & -> & _). reflexivity.
Qed.

Lemma check_guess_word (letter : string) (g : game) :
  word (check_guess letter g) = word g.
Proof.
  rewrite check_guess_split.
  destruct (settle_frame (record_guess letter g)) as (-> & _).
  apply record_guess_frame.
Qed.

Lemma check_guess_hint_used (letter : string) (g : game) :
  hint_used (check_guess letter g) = hint_used g.
Proof.
  rewrite check_guess_split.
  destruct (settle_frame (record_guess letter g)) as (_ & _ & _ & -> & _).
  apply record_guess_frame.
Qed.

Lemma check_guess_fun_fact (letter : string) (g : game) :
  fun_fact (check_guess letter g) = fun_fact g.
Proof.
  rewrite check_guess_split.
  destruct (settle_frame (record_guess letter g)) as (_ & _ & _ & _ & ->).
  apply record_guess_frame.
Qed.

Lemma check_guess_attempts (letter : string) (g : game) :
  attempts (check_guess letter g) =
  if list_in letter (guessed_letters g) || str_in letter (word g)
  then attempts g else attempts g - 1.
Proof.
  rewrite check_guess_split.
  destruct (settle_frame (record_guess letter g)) as (_ & _ & -> & _).
  apply record_guess_attempts.
Qed.

Lemma check_guess_letters (letter : string) (g : game) :
  guessed_letters (check_guess letter g) =
  if list_in letter (guessed_letters g) then guessed_letters g
  else (guessed_letters g ++ [letter])%list.
Proof.
  rewrite check_guess_split.
  destruct (settle_frame (record_guess letter g)) as (_ & -> & _).
  apply record_guess_letters.
Qed.

Lemma check_guess_game_over (letter : string) (g : game) :
  game_over (check_guess letter g) =
  (attempts (check_guess letter g) <=? 0) ||
  all_guessed (check_guess letter g) || game_over g.
Proof.
  rewrite check_guess_split, settle_game_over.
  destruct (record_guess_frame letter g) as (_ & _ & -> & _).
  destruct (settle_frame (record_guess letter g)) as (Hw & Hl & -> & _).
  unfold all_guessed. rewrite Hw, Hl. reflexivity.
Qed.

Lemma check_guess_score (letter : string) (g : game) :
  score (check_guess letter g) =
  if ((attempts (check_guess letter g) <=? 0) ||
      all_guessed (check_guess letter g)) &&
     (attempts (check_guess letter g) >? 0)
  then win_score (check_guess letter g) else score g.
Proof.
  rewrite check_guess_split, settle_score, settle_win_score.
  destruct (record_guess_frame letter g) as (_ & -> & _).
  destruct (settle_frame (record_guess letter g)) as (Hw & Hl & -> & _).
  unfold all_guessed. rewrite Hw, Hl. reflexivity.
Qed.

Lemma check_guess_attempts_le (letter : string) (g : game) :
  attempts (check_guess letter g) <= attempts g.
Proof.
  rewrite check_guess_attempts.
  destruct (list_in letter (guessed_letters g) || str_in letter (word g)); lia.
Qed.

Lemma check_guess_keeps_letters (letter : string) (g : game) (c : string) :
  In c (guessed_letters g) -> In c (guessed_letters (check_guess letter g)).
Proof.
  rewrite check_guess_letters.
  destruct (list_in letter (guessed_letters g)); [tauto |].
  intros H. apply in_or_app. now left.
Qed.

Lemma check_guess_keeps_complete (letter : string) (g : game) :
  word_complete g -> word_complete (check_guess letter g).
Proof.
  unfold word_complete. rewrite check_guess_word.
  intros H c Hc. apply check_guess_keeps_letters. now apply H.
Qed.

(** A letter that costs an attempt is no character of the word, so it
    cannot complete it. *)
Lemma costly_guess_completes_nothing (letter : string) (g : game) :
  attempts (check_guess letter g) < attempts g ->
  word_complete (check_guess letter g) -> word_complete g.
Proof.
  rewrite check_guess_attempts. unfold word_complete.
  rewrite check_guess_word, check_guess_letters.
  destruct (list_in letter (guessed_letters g)) eqn:Hin; simpl; [lia |].
  destruct (str_in letter (word g)) eqn:Hsub; [lia |].
  intros _ H c Hc. specialize (H c Hc).
  apply in_app_or in H. destruct H as [H | [<- | []]]; [assumption |].
  apply char_str_in in Hc. congruence.
Qed.

(** ** Behaviour of [show_hint_section] on the state *)

Lemma show_hint_section_state (p : provider) (clicked : bool) (g : game) :
  fst (show_hint_section p clicked g) =
  if negb (game_over g) && negb (hint_used g) && clicked && (attempts g >? 2)
  then set_hint_used true (set_attempts (attempts g - 2) g)
  else g.
Proof.
  unfold show_hint_section.
  destruct (game_over g), (hint_used g), clicked, (attempts g >? 2);
    simpl; try reflexivity.
  unfold bind. destruct (get_ai_hint _ _) as [h t]. reflexivity.
Qed.

Lemma show_hint_section_attempts_le (p : provider) (clicked : bool) (g : game) :
  attempts (fst (show_hint_section p clicked g)) <= attempts g.
Proof.
  rewrite show_hint_section_state.
  destruct (_ && _); simpl; lia.
Qed.

Lemma step_attempts_le (o : op) (g : game) : attempts (step o g) <= attempts g.
Proof.
  destruct o as [letter | p clicked]; simpl.
  - apply check_guess_attempts_le.
  - apply show_hint_section_attempts_le.
Qed.

Lemma run_app (ops1 ops2 : list op) (g : game) :
  run (ops1 ++ ops2) g = run ops2 (run ops1 g).
Proof. unfold run. apply fold_left_app. Qed.

Lemma run_attempts_le (ops : list op) (g : game) :
  attempts (run ops g) <= attempts g.
Proof.
  revert g. induction ops as [| o ops IH]; intros g; simpl; [lia |].
  change (attempts (run ops (step o g)) <= attempts g).
  specialize (IH (step o g)). pose proof (step_attempts_le o g). lia.
Qed.

Lemma in_round_run (w f : string) (ops : list op) (g : game) :
  in_round w f g -> in_round w f (run ops g).
Proof.
  revert g. induction ops as [| o ops IH]; intros g H; simpl; [assumption |].
  apply IH. now constructor.
Qed.

(** ** The round invariant *)

Lemma end_condition_bool (g : game) :
  (attempts g <=? 0) || all_guessed g = true <-> end_condition g.
Proof.
  unfold end_condition.
  rewrite orb_true_iff, Z.leb_le, all_guessed_iff. reflexivity.
Qed.

Lemma end_condition_check_guess (letter : string) (g : game) :
  end_condition g -> end_condition (check_guess letter g).
Proof.
  intros [H | H]; [left | right].
  - pose proof (check_guess_attempts_le letter g). lia.
  - now apply check_guess_keeps_complete.
Qed.

Lemma round_inv_fresh (w f : string) : round_inv (fresh_round w f).
Proof.
  constructor; simpl; intros; try lia; try discriminate.
Qed.

Lemma round_inv_check_guess (letter : string) (g : game) :
  round_inv g -> round_inv (check_guess letter g).
Proof.
  intros I.
  pose proof (check_guess_game_over letter g) as Hover.
  pose proof (check_guess_score letter g) as Hscore.
  pose proof (end_condition_bool (check_guess letter g)) as Hend.
  destruct ((attempts (check_guess letter g) <=? 0) ||
            all_guessed (check_guess letter g)) eqn:Hc.
  - assert (He : end_condition (check_guess letter g)) by now apply Hend.
    simpl in Hover.
    constructor; intros H; try congruence.
    intros Hpos. apply Z.gtb_lt in Hpos. now rewrite Hpos in Hscore.
  - simpl in Hover, Hscore. apply orb_false_iff in Hc. destruct Hc as [Ha Hg].
    apply Z.leb_gt in Ha. apply all_guessed_false_iff in Hg.
    constructor; intros H.
    + rewrite Hscore. apply I. congruence.
    + assumption.
    + tauto.
    + exfalso. assert (Hg0 : game_over g = true) by congruence.
      apply (inv_over_end g I) in Hg0.
      apply (end_condition_check_guess letter), Hend in Hg0. discriminate.
    + exfalso. assert (Hg0 : game_over g = true) by congruence.
      apply (inv_over_end g I) in Hg0.
      apply (end_condition_check_guess letter), Hend in Hg0. discriminate.
Qed.

Lemma round_inv_show_hint_section (p : provider) (clicked : bool) (g : game) :
  round_inv g -> round_inv (fst (show_hint_section p clicked g)).
Proof.
  intros I. rewrite show_hint_section_state.
  destruct (game_over g) eqn:Hover; simpl; [assumption |].
  destruct (hint_used g) eqn:Hhint; simpl; [assumption |].
  destruct clicked; simpl; [| assumption].
  destruct (attempts g >? 2) eqn:Ha; [| assumption].
  apply Z.gtb_lt in Ha.
  constructor; simpl; intros; try congruence.
  - now apply I.
  - lia.
  - assert (Hc : word_complete g) by assumption.
    destruct (inv_open_complete g I Hover Hc) as [_ H6].
    specialize (H6 Hhint). split; [lia | discriminate].
Qed.

Lemma round_inv_step (o : op) (g : game) : round_inv g -> round_inv (step o g).
Proof.
  destruct o; simpl.
  - apply round_inv_check_guess.
  - apply round_inv_show_hint_section.
Qed.

Lemma in_round_inv (w f : string) (g : game) : in_round w f g -> round_inv g.
Proof.
  induction 1.
  - apply round_inv_fresh.
  - now apply round_inv_step.
Qed.

Lemma check_guess_attempts_ge (letter : string) (g : game) :
  attempts g - 1 <= attempts (check_guess letter g).
Proof.
  rewrite check_guess_attempts.
  destruct (list_in letter (guessed_letters g) || str_in letter (word g)); lia.
Qed.

(** In an open round, a guess never exhausts the attempts and completes the
    word at once. *)
Lemma open_round_win_has_attempts (w f : string) (g : game) (letter : string) :
  in_round w f g -> game_over g = false ->
  word_complete (check_guess letter g) -> 0 < attempts (check_guess letter g).
Proof.
  intros Hr Hopen Hc. apply in_round_inv in Hr.
  pose proof (inv_open_attempts g Hr Hopen) as Hpos.
  pose proof (check_guess_attempts_ge letter g) as Hge.
  destruct (Z_lt_le_dec 0 (attempts (check_guess letter g))) as [H | H];
    [assumption | exfalso].
  assert (Hlt : attempts (check_guess letter g) < attempts g) by lia.
  apply (costly_guess_completes_nothing letter g Hlt) in Hc.
  destruct (inv_open_complete g Hr Hopen Hc) as [H4 _]. lia.
Qed.

(** ** Scoring at the end of a round *)

(** C1: when a guess ends a round (the round was open and [check_guess]
    sets [game_over]), a won round scores [attempts * 10] plus 5 when no
    hint was used and plus 0 when one was, a lost round scores 0, and the
    round is one or the other. *)
Theorem score_at_round_end (w f : string) (g : game) (letter : string) :
  in_round w f g ->
  game_over g = false ->
  game_over (check_guess letter g) = true ->
  let g' := check_guess letter g in
  (won g' -> score g' = attempts g' * 10 + (if hint_used g' then 0 else 5)) /\
  (lost g' -> score g' = 0) /\
  (won g' \/ lost g').
Proof.
  intros Hr Hopen Hover g'.
  pose proof (check_guess_game_over letter g) as Hgo.
  pose proof (check_guess_score letter g) as Hscore.
  fold g' in Hgo, Hscore, Hover.
  rewrite Hopen, orb_false_r in Hgo. rewrite Hover in Hgo. symmetry in Hgo.
  rewrite Hgo in Hscore. simpl in Hscore.
  assert (Hwin : won g' -> 0 < attempts g')
    by (apply open_round_win_has_attempts with (w := w) (f := f); assumption).
  split; [| split].
  - intros Hw. apply Hwin, Z.gtb_lt in Hw. rewrite Hw in Hscore.
    rewrite Hscore. unfold win_score. now destruct (hint_used g').
  - intros [Hle _].
    assert (Hf : (attempts g' >? 0) = false).
    { destruct (attempts g' >? 0) eqn:E; [apply Z.gtb_lt in E; lia | easy]. }
    rewrite Hf in Hscore. rewrite Hscore.
    apply in_round_inv in Hr. now apply Hr.
  - apply end_condition_bool in Hgo. unfold won, lost.
    destruct (all_guessed g') eqn:E.
    + left. now apply all_guessed_iff.
    + right. apply all_guessed_false_iff in E. destruct Hgo; tauto.
Qed.

Lemma score_at_round_end_witness :
  let g := guess_all ["C"; "A"] (fresh_round "CAT" "") in
  let g' := check_guess "T" g in
  game_over g = false /\ game_over g' = true /\ won g' /\ score g' = 65.
Proof.
  set (g := guess_all ["C"; "A"] (fresh_round "CAT" "")).
  assert (Hr : in_round "CAT" "" g) by (apply in_round_run; constructor).
  assert (Hopen : game_over g = false) by reflexivity.
  assert (Hover : game_over (check_guess "T" g) = true) by reflexivity.
  destruct (score_at_round_end "CAT" "" g "T" Hr Hopen Hover) as (Hw & _ & _).
  assert (W : won (check_guess "T" g))
    by (apply all_guessed_iff; vm_compute; reflexivity).
  cbv zeta. fold g.
  split; [exact Hopen |]. split; [exact Hover |]. split; [exact W |].
  rewrite (Hw W). reflexivity.
Defined.

(** ** When [game_over] is set *)

(** C2: in every state of a round, after [check_guess] the flag
    [game_over] is set exactly when the attempts are at most 0 or every
    character of the word is among the guessed letters; the other
    operations never set it ([show_hint_section] keeps it, [new_game]
    clears it). *)
Theorem game_over_iff_end_condition (w f : string) (g : game) (letter : string) :
  in_round w f g ->
  (game_over (check_guess letter g) = true <->
   attempts (check_guess letter g) <= 0 \/
   (forall c, In c (chars (word (check_guess letter g))) ->
              In c (guessed_letters (check_guess letter g)))) /\
  (forall p clicked,
     game_over (fst (show_hint_section p clicked g)) = game_over g) /\
  (forall w' p, game_over (fst (new_game w' p g)) = false).
Proof.
  intros Hr. split; [| split].
  - change (game_over (check_guess letter g) = true <->
            end_condition (check_guess letter g)).
    split.
    + apply in_round_inv in Hr.
      apply (inv_over_end _ (round_inv_check_guess letter g Hr)).
    + intros He. apply end_condition_bool in He.
      rewrite check_guess_game_over, He. reflexivity.
  - intros p clicked. rewrite show_hint_section_state.
    destruct (_ && _); reflexivity.
  - intros w' p. unfold new_game, bind.
    destruct (get_fun_fact p g) as [x t]. reflexivity.
Qed.

Lemma game_over_iff_end_condition_witness :
  game_over (check_guess "T" (guess_all ["C"; "A"] (fresh_round "CAT" ""))) = true /\
  game_over (check_guess "X" (guess_all ["C"; "A"] (fresh_round "CAT" ""))) <> true.
Proof.
  set (g := guess_all ["C"; "A"] (fresh_round "CAT" "")).
  assert (Hr : in_round "CAT" "" g) by (apply in_round_run; constructor).
  split.
  - apply (proj1 (game_over_iff_end_condition "CAT" "" g "T" Hr)).
    right. intros c Hc. apply list_in_iff.
    vm_compute in Hc. decompose [or] Hc; subst; try reflexivity; contradiction.
  - intros H.
    apply (proj1 (game_over_iff_end_condition "CAT" "" g "X" Hr)) in H.
    destruct H as [H | H]; [vm_compute in H; now apply H |].
    specialize (H "T" ltac:(vm_compute; tauto)).
    apply list_in_iff in H. vm_compute in H. discriminate.
Defined.

(** ** A guess that completes the word *)




(** ** Attempts used up *)

(** X22: a call of [check_guess] that leaves the attempts at 0 or below
    sets [game_over] and leaves the score as it was, whether or not the word
    is complete: the win formula is applied only while attempts remain. *)
Theorem no_attempts_no_rescoring (g : game) (letter : string) :
  attempts (check_guess letter g) <= 0 ->
  game_over (check_guess letter g) = true /\
  score (check_guess letter g) = score g.
Proof.
  intros Hle.
  assert (Hb : (attempts (check_guess letter g) <=? 0) = true)
    by now apply Z.leb_le.
  assert (Hf : (attempts (check_guess letter g) >? 0) = false).
  { destruct (attempts (check_guess letter g) >? 0) eqn:E;
      [apply Z.gtb_lt in E; lia | reflexivity]. }
  split.
  - rewrite check_guess_game_over, Hb. reflexivity.
  - rewrite check_guess_score, Hf, andb_false_r. reflexivity.
Qed.

Lemma no_attempts_no_rescoring_witness :
  let g := guess_all ["C"; "A"; "T"; "X"; "Q"; "Z"; "J"; "W"]
                     (fresh_round "CAT" "") in
  score g = 15 /\ game_over (check_guess "V" g) = true /\
  score (check_guess "V" g) = 15.
Proof.
  set (g := guess_all ["C"; "A"; "T"; "X"; "Q"; "Z"; "J"; "W"]
                      (fresh_round "CAT" "")).
  destruct (no_attempts_no_rescoring g "V") as [Ho Hs].
  - vm_compute. discriminate.
  - cbv zeta. split; [reflexivity |]. split; [exact Ho |].
    rewrite Hs. reflexivity.
Defined.

(** ** Guessing after the round is over *)

(** C4, as stated, fails: [check_guess] does not test [game_over].  After
    the word CAT is completed the round is over with score 65; a further
    guess X is still recorded, costs an attempt and rescores the round. *)
Lemma guess_when_over_counterexample :
  let g := guess_all ["C"; "A"; "T"] (fresh_round "CAT" "") in
  let g' := check_guess "X" g in
  game_over g = true /\ g' <> g /\
  guessed_letters g' = ["C"; "A"; "T"; "X"] /\
  attempts g = 6 /\ attempts g' = 5 /\ score g = 65 /\ score g' = 55.
Proof. vm_compute. repeat split. discriminate. Qed.

(** C4, amended: in a round that is over, [check_guess] with a letter
    already guessed changes no field; with any letter it leaves the word,
    [hint_used], [fun_fact] and [game_over] as they are; a letter not yet
    guessed is still appended to the guessed letters and costs an attempt
    when it is not in the word. *)
Theorem check_guess_when_over (w f : string) (g : game) (letter : string) :
  in_round w f g ->
  game_over g = true ->
  (In letter (guessed_letters g) -> check_guess letter g = g) /\
  word (check_guess letter g) = word g /\
  hint_used (check_guess letter g) = hint_used g /\
  fun_fact (check_guess letter g) = fun_fact g /\
  game_over (check_guess letter g) = true /\
  (~ In letter (guessed_letters g) ->
   guessed_letters (check_guess letter g) = (guessed_letters g ++ [letter])%list /\
   attempts (check_guess letter g) =
   if str_in letter (word g) then attempts g else attempts g - 1).
Proof.
  intros Hr Hover. apply in_round_inv in Hr.
  repeat apply conj.
  - intros Hin. apply list_in_iff in Hin.
    rewrite check_guess_split. unfold record_guess. rewrite Hin.
    pose proof (inv_over_end g Hr Hover) as He.
    apply end_condition_bool in He. unfold settle. rewrite He.
    destruct (attempts g >? 0) eqn:Ha.
    + apply Z.gtb_lt in Ha. pose proof (inv_over_score g Hr Hover Ha) as Hs.
      unfold set_score, set_game_over, win_score in *.
      destruct g as [w0 gl a sc go hu ff]; simpl in *.
      rewrite <- Hs, Hover. reflexivity.
    + unfold set_game_over.
      destruct g as [w0 gl a sc go hu ff]; simpl in *.
      rewrite Hover. reflexivity.
  - apply check_guess_word.
  - apply check_guess_hint_used.
  - apply check_guess_fun_fact.
  - rewrite check_guess_game_over, Hover. apply orb_true_r.
  - intros H. apply list_in_false_iff in H.
    rewrite check_guess_letters, check_guess_attempts, H. split; reflexivity.
Qed.

Lemma check_guess_when_over_witness :
  let g := guess_all ["C"; "A"; "T"] (fresh_round "CAT" "") in
  check_guess "A" g = g /\
  guessed_letters (check_guess "X" g) = ["C"; "A"; "T"; "X"] /\
  attempts (check_guess "X" g) = 5.
Proof.
  set (g := guess_all ["C"; "A"; "T"] (fresh_round "CAT" "")).
  assert (Hr : in_round "CAT" "" g) by (apply in_round_run; constructor).
  assert (Hover : game_over g = true) by reflexivity.
  destruct (check_guess_when_over "CAT" "" g "A" Hr Hover) as (Hsame & _).
  destruct (check_guess_when_over "CAT" "" g "X" Hr Hover)
    as (_ & _ & _ & _ & _ & Hnew).
  assert (HA : In "A" (guessed_letters g)) by (apply list_in_iff; reflexivity).
  assert (HX : ~ In "X" (guessed_letters g))
    by (apply list_in_false_iff; reflexivity).
  destruct (Hnew HX) as [Hl Ha].
  cbv zeta. split; [exact (Hsame HA) |]. split.
  - rewrite Hl. reflexivity.
  - rewrite Ha. reflexivity.
Defined.

(** ** Buying a hint *)

Lemma step_keeps_hint_used (o : op) (g : game) :
  hint_used g = true -> hint_used (step o g) = true.
Proof.
  intros H. destruct o as [letter | p clicked]; simpl.
  - now rewrite check_guess_hint_used.
  - rewrite show_hint_section_state, H, andb_false_r. assumption.
Qed.

Lemma run_keeps_hint_used (ops : list op) (g : game) :
  hint_used g = true -> hint_used (run ops g) = true.
Proof.
  revert g. induction ops as [| o ops IH]; intros g H; simpl; [assumption |].
  apply IH. now apply step_keeps_hint_used.
Qed.

Lemma show_hint_section_closed (p : provider) (clicked : bool) (g : game) :
  game_over g = true \/ hint_used g = true ->
  show_hint_section p clicked g = (g, []).
Proof.
  unfold show_hint_section.
  intros [-> | ->]; [| rewrite andb_false_r]; reflexivity.
Qed.

(** C5: [show_hint_section] does nothing unless the round is open and no
    hint was used.  When it is and the button is clicked, with at most 2
    attempts the state is unchanged and only the warning is shown;
    otherwise the attempts go down by exactly 2 and [hint_used] is set, the
    other fields staying as they are.  After a purchase no later call,
    whatever happens in between, changes the state, and two calls in a row
    never cost more than 2 attempts. *)
Theorem show_hint_section_purchase (p : provider) (clicked : bool) (g : game) :
  (game_over g = true \/ hint_used g = true ->
   show_hint_section p clicked g = (g, [])) /\
  (game_over g = false -> hint_used g = false -> clicked = true ->
   (attempts g <= 2 ->
    show_hint_section p clicked g =
    (g, [StWarning "Not enough attempts for a hint!"])) /\
   (2 < attempts g ->
    let g' := fst (show_hint_section p clicked g) in
    attempts g' = attempts g - 2 /\ hint_used g' = true /\
    word g' = word g /\ guessed_letters g' = guessed_letters g /\
    score g' = score g /\ game_over g' = false /\ fun_fact g' = fun_fact g /\
    forall ops p' clicked',
      show_hint_section p' clicked' (run ops g') = (run ops g', []))) /\
  (forall p' clicked',
     attempts g - 2 <=
     attempts (fst (show_hint_section p' clicked'
                      (fst (show_hint_section p clicked g))))).
Proof.
  split; [apply show_hint_section_closed | split].
  - intros Hopen Hhint ->. split.
    + intros Hle. unfold show_hint_section. rewrite Hopen, Hhint. simpl.
      destruct (attempts g >? 2) eqn:E; [apply Z.gtb_lt in E; lia |].
      reflexivity.
    + intros Hgt g'. unfold g'. rewrite show_hint_section_state.
      rewrite Hopen, Hhint. simpl.
      apply Z.gtb_lt in Hgt. rewrite Hgt. simpl.
      repeat (split; [first [reflexivity | assumption] |]).
      intros ops p' clicked'. apply show_hint_section_closed. right.
      now apply run_keeps_hint_used.
  - intros p' clicked'. rewrite !show_hint_section_state.
    destruct (negb (game_over g) && negb (hint_used g) && clicked &&
              (attempts g >? 2)) eqn:E1; simpl.
    + cbn [hint_used set_hint_used negb]. rewrite andb_false_r. simpl. lia.
    + destruct (negb (game_over g) && negb (hint_used g) && clicked' &&
                (attempts g >? 2)); simpl; lia.
Qed.

Lemma show_hint_section_purchase_witness :
  let g := fresh_round "CAT" "" in
  let g' := fst (show_hint_section good_service true g) in
  attempts g' = 4 /\ hint_used g' = true /\
  show_hint_section no_service true (check_guess "X" g') = (check_guess "X" g', []) /\
  show_hint_section good_service true (set_attempts 2 g) =
  (set_attempts 2 g, [StWarning "Not enough attempts for a hint!"]).
Proof.
  set (g := fresh_round "CAT" "").
  destruct (show_hint_section_purchase good_service true g) as (_ & H & _).
  destruct (H eq_refl eq_refl eq_refl) as [_ Hbuy].
  destruct (Hbuy ltac:(reflexivity)) as (Ha & Hh & _ & _ & _ & _ & _ & Hnext).
  destruct (show_hint_section_purchase good_service true (set_attempts 2 g))
    as (_ & H2 & _).
  destruct (H2 eq_refl eq_refl eq_refl) as [Hwarn _].
  cbv zeta. split; [exact Ha |]. split; [exact Hh |]. split.
  - exact (Hnext [Guess "X"] no_service true).
  - apply Hwarn. simpl. lia.
Defined.

(** ** Attempts never go up *)

(** C6: over any sequence of guesses and hint requests the attempts never
    increase: running more operations never gives a larger value than
    running fewer, and no single operation raises it. *)
Theorem attempts_non_increasing (g : game) (ops1 ops2 : list op) (o : op) :
  attempts (run (ops1 ++ ops2) g) <= attempts (run ops1 g) /\
  attempts (step o g) <= attempts g.
Proof.
  split.
  - rewrite run_app. apply run_attempts_le.
  - apply step_attempts_le.
Qed.

(** ** Guessing a letter again *)

(** C7: [check_guess] with a letter already among the guessed letters
    leaves the attempts and the guessed letters unchanged. *)
Theorem repeated_guess_frame (g : game) (letter : string) :
  In letter (guessed_letters g) ->
  attempts (check_guess letter g) = attempts g /\
  guessed_letters (check_guess letter g) = guessed_letters g.
Proof.
  intros H. apply list_in_iff in H.
  rewrite check_guess_attempts, check_guess_letters, H. split; reflexivity.
Qed.

Lemma repeated_guess_frame_witness :
  let g := guess_all ["C"; "X"] (fresh_round "CAT" "") in
  attempts (check_guess "X" g) = 5 /\
  guessed_letters (check_guess "X" g) = ["C"; "X"].
Proof.
  set (g := guess_all ["C"; "X"] (fresh_round "CAT" "")).
  assert (H : In "X" (guessed_letters g)) by (apply list_in_iff; reflexivity).
  destruct (repeated_guess_frame g "X" H) as [Ha Hl].
  cbv zeta. split; [rewrite Ha | rewrite Hl]; reflexivity.
Defined.

(** ** The guessed letters stay distinct *)

Lemma step_keeps_NoDup (o : op) (g : game) :
  NoDup (guessed_letters g) -> NoDup (guessed_letters (step o g)).
Proof.
  intros H. destruct o as [letter | p clicked]; simpl.
  - rewrite check_guess_letters.
    destruct (list_in letter (guessed_letters g)) eqn:E; [assumption |].
    apply list_in_false_iff in E.
    apply NoDup_app; [assumption | repeat constructor; simpl; tauto |].
    intros a Ha [<- | []]. contradiction.
  - rewrite show_hint_section_state. destruct (_ && _); assumption.
Qed.

Lemma run_keeps_NoDup (ops : list op) (g : game) :
  NoDup (guessed_letters g) -> NoDup (guessed_letters (run ops g)).
Proof.
  revert g. induction ops as [| o ops IH]; intros g H; simpl; [assumption |].
  apply IH. now apply step_keeps_NoDup.
Qed.

(** C9: starting from guessed letters without duplicates, after any
    sequence of [check_guess] calls no letter occurs twice in the list. *)
Theorem guessed_letters_distinct (g : game) (letters : list string) :
  NoDup (guessed_letters g) ->
  NoDup (guessed_letters (guess_all letters g)).
Proof. apply run_keeps_NoDup. Qed.

Lemma guessed_letters_distinct_witness :
  NoDup (guessed_letters
           (guess_all ["A"; "X"; "A"; "T"; "X"] (fresh_round "CAT" ""))).
Proof.
  apply (guessed_letters_distinct (fresh_round "CAT" "")
                                  ["A"; "X"; "A"; "T"; "X"]).
  simpl. constructor.
Defined.

(** ** The hint provider's retry loop *)

Lemma retry_loop_S (p : provider) (prompt : string) (i n : nat) :
  retry_loop p prompt i (S n) =
  match p prompt i with
  | Completed c => (strip c, [Request prompt])
  | Raised e =>
      (fst (retry_loop p prompt (S i) n),
       Request prompt :: StError ("AI service error: " ++ e) :: Sleep 2
         :: snd (retry_loop p prompt (S i) n))
  end.
Proof.
  simpl. destruct (p prompt i) as [c | e]; [reflexivity |].
  unfold bind, emit. destruct (retry_loop p prompt (S i) n) as [r t].
  reflexivity.
Qed.

Lemma requests_app (t1 t2 : list event) :
  requests (t1 ++ t2) = (requests t1 + requests t2)%nat.
Proof.
  induction t1 as [| e t1 IH]; simpl; [reflexivity |].
  destruct e; simpl; now rewrite IH.
Qed.

Lemma requests_failed_attempts (prompt : string) (errs : list string) :
  requests (failed_attempts prompt errs) = List.length errs.
Proof.
  unfold failed_attempts.
  induction errs as [| e errs IH]; [reflexivity |].
  cbn [flat_map app requests List.length]. f_equal. exact IH.
Qed.

(** The log of the loop: some failed attempts, each followed by its error
    message and a sleep of 2, then either one successful request or, with
    the iterations used up, nothing. *)
Lemma retry_loop_shape (p : provider) (prompt : string) (n i : nat) :
  exists errs tl,
    snd (retry_loop p prompt i n) = (failed_attempts prompt errs ++ tl)%list /\
    (forall k e, nth_error errs k = Some e -> p prompt (i + k)%nat = Raised e) /\
    ((exists c, tl = [Request prompt] /\ (List.length errs < n)%nat /\
                p prompt (i + List.length errs)%nat = Completed c /\
                fst (retry_loop p prompt i n) = strip c) \/
     (tl = [] /\ List.length errs = n /\ fst (retry_loop p prompt i n) = fallback)).
Proof.
  revert i. induction n as [| n IH]; intros i.
  - exists [], []. repeat split.
    + intros [| k] e H; discriminate.
    + right. repeat split.
  - rewrite retry_loop_S. destruct (p prompt i) as [c | e] eqn:E.
    + exists [], [Request prompt]. repeat split.
      * intros [| k] e H; discriminate.
      * left. exists c. simpl. rewrite Nat.add_0_r. repeat split; [lia | assumption].
    + destruct (IH (S i)) as (errs & tl & Hlog & Herrs & Hend).
      exists (e :: errs), tl. simpl. repeat split.
      * now rewrite Hlog.
      * intros [| k] e' H; simpl in H.
        -- injection H as <-. now rewrite Nat.add_0_r.
        -- rewrite Nat.add_succ_r. now apply Herrs.
      * destruct Hend as [(c & Htl & Hlen & Hc & Hres) | (Htl & Hlen & Hres)].
        -- left. exists c. rewrite Nat.add_succ_r. repeat split; try assumption. lia.
        -- right. repeat split; try assumption. lia.
Qed.

(** C8: [get_ai_content] with its 3 retries calls the service at most 3
    times; its log is a run of failed attempts, each followed by the error
    message and a sleep of 2, ended by one successful request or by
    nothing; it always returns a string, the stripped answer of the first
    attempt that succeeds or, when all three attempts fail, the static
    fallback. *)
Theorem get_ai_content_retries (p : provider) (prompt : string) :
  let r := get_ai_content p prompt 3 in
  (requests (snd r) <= 3)%nat /\
  (exists errs tl,
     snd r = (failed_attempts prompt errs ++ tl)%list /\
     (forall k e, nth_error errs k = Some e -> p prompt k = Raised e) /\
     ((exists c, tl = [Request prompt] /\ (List.length errs < 3)%nat /\
                 p prompt (List.length errs) = Completed c /\ fst r = strip c) \/
      (tl = [] /\ List.length errs = 3%nat /\ fst r = fallback))) /\
  ((forall i, (i < 3)%nat -> exists e, p prompt i = Raised e) ->
   fst r = fallback /\ requests (snd r) = 3%nat).
Proof.
  intros r. unfold r, get_ai_content.
  change (Z.to_nat 3) with 3%nat.
  destruct (retry_loop_shape p prompt 3 0) as (errs & tl & Hlog & Herrs & Hend).
  simpl in Herrs, Hend.
  assert (Hreq : requests (snd (retry_loop p prompt 0 3)) =
                 (List.length errs + requests tl)%nat)
    by now rewrite Hlog, requests_app, requests_failed_attempts.
  split; [| split].
  - rewrite Hreq.
    destruct Hend as [(c & -> & Hlen & _) | (-> & Hlen & _)]; simpl; lia.
  - exists errs, tl. auto.
  - intros Hall.
    destruct Hend as [(c & _ & Hlen & Hc & _) | (-> & Hlen & Hres)].
    + destruct (Hall (List.length errs) Hlen) as [e He]. congruence.
    + split; [assumption |]. rewrite Hreq, Hlen. reflexivity.
Qed.

Lemma get_ai_content_retries_witness :
  fst (get_ai_content no_service "hint?" 3) = fallback /\
  requests (snd (get_ai_content no_service "hint?" 3)) = 3%nat.
Proof.
  apply (get_ai_content_retries no_service "hint?").
  intros i _. exists "offline". reflexivity.
Defined.

(** ** Reading the leaderboard *)

Lemma collect_raises (s : doc_stream) :
  stream_raises s = true -> exists e, collect s = inl e.
Proof.
  induction s as [| d rest IH | e]; simpl; intros H.
  - discriminate.
  - destruct (IH H) as [e ->]. now exists e.
  - now exists e.
Qed.

Lemma read_scores_fails (db : store) (limit : Z) :
  read_fails db limit = true -> exists e, read_scores db limit = inl e.
Proof.
  unfold read_fails, read_scores. destruct (db limit) as [e | s].
  - intros _. now exists e.
  - apply collect_raises.
Qed.

(** C10: when the read of the score store fails, while the query is built
    or while its stream is consumed, [get_leaderboard] returns the empty
    list and shows one error message; its value is the one it returns on a
    store with no score. *)
Theorem get_leaderboard_read_failure (db : store) (limit : Z) :
  read_fails db limit = true ->
  fst (get_leaderboard db limit) = [] /\
  fst (get_leaderboard db limit) = fst (get_leaderboard empty_store limit) /\
  exists e, snd (get_leaderboard db limit) = [StError ("Leaderboard error: " ++ e)].
Proof.
  intros H. destruct (read_scores_fails db limit H) as [e He].
  unfold get_leaderboard. rewrite He. simpl.
  repeat split. now exists e.
Qed.

Lemma get_leaderboard_read_failure_witness :
  fst (get_leaderboard flaky_store 10) = [] /\
  fst (get_leaderboard flaky_store 10) = fst (get_leaderboard empty_store 10).
Proof.
  destruct (get_leaderboard_read_failure flaky_store 10 eq_refl) as (H1 & H2 & _).
  split; [exact H1 | exact H2].
Defined.

(** * Further properties of the round *)

(** ** What a round never changes *)

Lemma step_word (o : op) (g : game) : word (step o g) = word g.
Proof.
  destruct o as [letter | p clicked]; simpl.
  - apply check_guess_word.
  - rewrite show_hint_section_state. destruct (_ && _); reflexivity.
Qed.

Lemma step_fun_fact (o : op) (g : game) : fun_fact (step o g) = fun_fact g.
Proof.
  destruct o as [letter | p clicked]; simpl.
  - apply check_guess_fun_fact.
  - rewrite show_hint_section_state. destruct (_ && _); reflexivity.
Qed.

Lemma step_extends_letters (o : op) (g : game) :
  exists l, guessed_letters (step o g) = (guessed_letters g ++ l)%list.
Proof.
  destruct o as [letter | p clicked]; simpl.
  - rewrite check_guess_letters.
    destruct (list_in letter (guessed_letters g)).
    + exists []. now rewrite app_nil_r.
    + now exists [letter].
  - exists []. rewrite show_hint_section_state, app_nil_r.
    destruct (_ && _); reflexivity.
Qed.

Lemma step_keeps_game_over (o : op) (g : game) :
  game_over g = true -> game_over (step o g) = true.
Proof.
  intros H. destruct o as [letter | p clicked]; simpl.
  - rewrite check_guess_game_over, H. apply orb_true_r.
  - rewrite show_hint_section_state, H. assumption.
Qed.

Lemma run_word (ops : list op) (g : game) : word (run ops g) = word g.
Proof.
  revert g. induction ops as [| o ops IH]; intros g; simpl; [reflexivity |].
  change (word (run ops (step o g)) = word g). now rewrite IH, step_word.
Qed.

(** X1: the word and the fun fact of a round are never modified, and the list
    of guessed letters is only ever extended at its end. *)
Theorem round_frame (ops : list op) (g : game) :
  word (run ops g) = word g /\
  fun_fact (run ops g) = fun_fact g /\
  exists l, guessed_letters (run ops g) = (guessed_letters g ++ l)%list.
Proof.
  revert g. induction ops as [| o ops IH]; intros g; simpl.
  - repeat split. exists []. now rewrite app_nil_r.
  - change (fold_left (fun g0 o0 => step o0 g0) ops (step o g))
      with (run ops (step o g)).
    destruct (IH (step o g)) as (Hw & Hf & l & Hl).
    rewrite Hw, Hf, Hl, step_word, step_fun_fact.
    destruct (step_extends_letters o g) as [l0 ->].
    repeat split. exists (l0 ++ l)%list. now rewrite app_assoc.
Qed.

(** X2: once a round is over it stays over, whatever is guessed or asked
    afterwards. *)
Theorem game_over_is_final (ops : list op) (g : game) :
  game_over g = true -> game_over (run ops g) = true.
Proof.
  revert g. induction ops as [| o ops IH]; intros g H; simpl; [assumption |].
  apply IH. now apply step_keeps_game_over.
Qed.

Lemma game_over_is_final_witness :
  game_over (run [Guess "X"; Hint good_service true; Guess "Q"]
                 (guess_all ["C"; "A"; "T"] (fresh_round "CAT" ""))) = true.
Proof.
  apply (game_over_is_final [Guess "X"; Hint good_service true; Guess "Q"]).
  reflexivity.
Defined.

(** ** Where the attempts went *)

Lemma wrong_letters_check_guess (letter : string) (g : game) :
  wrong_letters (check_guess letter g) =
  if list_in letter (guessed_letters g) || str_in letter (word g)
  then wrong_letters g
  else (wrong_letters g ++ [letter])%list.
Proof.
  unfold wrong_letters. rewrite check_guess_word, check_guess_letters.
  destruct (list_in letter (guessed_letters g)); simpl; [reflexivity |].
  rewrite filter_app. simpl.
  destruct (str_in letter (word g)); simpl; [apply app_nil_r | reflexivity].
Qed.

Lemma round_attempts_spent (w f : string) (g : game) :
  in_round w f g ->
  attempts g =
  6 - Z.of_nat (List.length (wrong_letters g)) - (if hint_used g then 2 else 0).
Proof.
  induction 1 as [| o g Hr IH]; [reflexivity |].
  destruct o as [letter | p clicked]; cbn [step].
  - rewrite check_guess_attempts, wrong_letters_check_guess,
      check_guess_hint_used.
    destruct (list_in letter (guessed_letters g) || str_in letter (word g));
      [assumption |].
    rewrite length_app. cbn [Datatypes.length]. lia.
  - rewrite show_hint_section_state.
    destruct (game_over g), (hint_used g) eqn:Hh, clicked, (attempts g >? 2);
      cbn [negb andb]; try (rewrite Hh; assumption).
    unfold wrong_letters in *.
    cbn [attempts hint_used word guessed_letters set_hint_used set_attempts].
    lia.
Qed.

(** X3: in every state of a round the attempts are the initial 6 less one per
    guessed letter that is not in the word and less 2 when a hint has been
    bought. *)
Theorem attempts_accounting (w f : string) (g : game) :
  in_round w f g ->
  attempts g =
  6 - Z.of_nat (List.length (wrong_letters g)) - (if hint_used g then 2 else 0).
Proof. apply round_attempts_spent. Qed.

Lemma attempts_accounting_witness :
  attempts (run [Guess "X"; Hint good_service true; Guess "C"; Guess "Q"]
                (fresh_round "CAT" "")) = 2.
Proof.
  rewrite (attempts_accounting "CAT" "").
  - reflexivity.
  - apply in_round_run. constructor.
Defined.

(** ** Bounds on the score *)

Lemma round_attempts_cap (w f : string) (g : game) :
  in_round w f g -> attempts g <= (if hint_used g then 4 else 6).
Proof.
  intros H. rewrite (round_attempts_spent w f g H).
  destruct (hint_used g); lia.
Qed.

(** X4: in every state of a round the score lies between 0 and 65, and between
    0 and 40 once a hint has been bought; the attempts never exceed 6, or 4
    with a hint. *)
Theorem score_bounds (w f : string) (g : game) :
  in_round w f g ->
  0 <= score g <= (if hint_used g then 40 else 65) /\
  attempts g <= (if hint_used g then 4 else 6).
Proof.
  intros Hr. split; [| now apply round_attempts_cap with (w := w) (f := f)].
  induction Hr as [| o g Hr IH]; [simpl; lia |].
  destruct o as [letter | p clicked]; simpl.
  - pose proof (round_attempts_cap w f _ (round_step w f (Guess letter) g Hr))
      as Hcap.
    simpl in Hcap. rewrite check_guess_score.
    rewrite check_guess_hint_used in *.
    destruct (_ && _) eqn:E; [| assumption].
    apply andb_true_iff in E. destruct E as [_ E]. apply Z.gtb_lt in E.
    unfold win_score. rewrite check_guess_hint_used.
    destruct (hint_used g); simpl; lia.
  - rewrite show_hint_section_state.
    destruct (game_over g) eqn:Ho; simpl; [assumption |].
    destruct (hint_used g) eqn:Hh; simpl; [now rewrite Hh |].
    destruct clicked; simpl; [| now rewrite Hh].
    destruct (attempts g >? 2); simpl; [| now rewrite Hh].
    apply in_round_inv in Hr. rewrite (inv_open_score g Hr Ho). lia.
Qed.

Lemma score_bounds_witness :
  0 <= score (run (Hint good_service true :: map Guess ["C"; "A"; "T"])
                  (fresh_round "CAT" "")) <= 40.
Proof.
  apply (score_bounds "CAT" ""
           (run (Hint good_service true :: map Guess ["C"; "A"; "T"])
                (fresh_round "CAT" ""))).
  apply in_round_run. constructor.
Defined.

Lemma open_word_scores_nothing (w f : string) (g : game) :
  in_round w f g -> ~ word_complete g -> score g = 0.
Proof.
  induction 1 as [| o g Hr IH]; [reflexivity |].
  destruct o as [letter | p clicked]; simpl.
  - intros Hn. rewrite check_guess_score.
    assert (Hg : all_guessed (check_guess letter g) = false)
      by now apply all_guessed_false_iff.
    rewrite Hg, orb_false_r.
    destruct (attempts (check_guess letter g) <=? 0) eqn:E1,
             (attempts (check_guess letter g) >? 0) eqn:E2; simpl;
      try (apply IH; intros Hc; apply Hn;
           now apply check_guess_keeps_complete).
    apply Z.leb_le in E1. apply Z.gtb_lt in E2. lia.
  - rewrite show_hint_section_state.
    destruct (_ && _); simpl; exact IH.
Qed.

(** X5: in a round whose word is not completely guessed the score is 0: points
    are only ever given for a complete word. *)
Theorem no_score_without_word (w f : string) (g : game) :
  in_round w f g -> ~ word_complete g -> score g = 0.
Proof. apply open_word_scores_nothing. Qed.

Lemma no_score_without_word_witness :
  score (guess_all ["C"; "X"; "Q"; "Z"; "J"; "W"; "V"] (fresh_round "CAT" "")) = 0.
Proof.
  apply (no_score_without_word "CAT" "").
  - apply in_round_run. constructor.
  - apply all_guessed_false_iff. reflexivity.
Defined.

(** ** Playing a round through *)

Lemma guess_all_snoc (ls : list string) (a : string) (g : game) :
  guess_all (ls ++ [a]) g = check_guess a (guess_all ls g).
Proof. unfold guess_all. now rewrite map_app, run_app. Qed.

Lemma guess_all_hint_used (ls : list string) (g : game) :
  hint_used (guess_all ls g) = hint_used g.
Proof.
  revert g. induction ls as [| a ls IH]; intros g; [reflexivity |].
  change (hint_used (guess_all ls (check_guess a g)) = hint_used g).
  now rewrite IH, check_guess_hint_used.
Qed.

Lemma check_guess_records (letter : string) (g : game) :
  In letter (guessed_letters (check_guess letter g)).
Proof.
  rewrite check_guess_letters.
  destruct (list_in letter (guessed_letters g)) eqn:E.
  - now apply list_in_iff.
  - apply in_or_app. right. now left.
Qed.

Lemma guess_all_keeps (ls : list string) (g : game) (c : string) :
  In c (guessed_letters g) -> In c (guessed_letters (guess_all ls g)).
Proof.
  revert g. induction ls as [| a ls IH]; intros g H; [assumption |].
  apply (IH (check_guess a g)). now apply check_guess_keeps_letters.
Qed.

Lemma guess_all_records (ls : list string) (g : game) (c : string) :
  In c ls -> In c (guessed_letters (guess_all ls g)).
Proof.
  revert g. induction ls as [| a ls IH]; intros g H; [contradiction |].
  change (In c (guessed_letters (guess_all ls (check_guess a g)))).
  destruct H as [<- | H].
  - apply guess_all_keeps, check_guess_records.
  - now apply IH.
Qed.

Lemma guess_all_only (ls : list string) (g : game) (c : string) :
  In c (guessed_letters (guess_all ls g)) -> In c (guessed_letters g) \/ In c ls.
Proof.
  revert g. induction ls as [| a ls IH]; intros g H; [now left |].
  apply (IH (check_guess a g)) in H. destruct H as [H | H].
  - rewrite check_guess_letters in H.
    destruct (list_in a (guessed_letters g)); [now left |].
    apply in_app_or in H. destruct H as [H | [<- | []]]; [now left |].
    right. now left.
  - right. now right.
Qed.

Lemma guess_all_new_letters (ls : list string) (g : game) :
  NoDup ls -> (forall l, In l ls -> ~ In l (guessed_letters g)) ->
  guessed_letters (guess_all ls g) = (guessed_letters g ++ ls)%list.
Proof.
  revert g. induction ls as [| a ls IH]; intros g Hnd Hnew.
  - symmetry. apply app_nil_r.
  - change (guessed_letters (guess_all ls (check_guess a g)) =
            (guessed_letters g ++ a :: ls)%list).
    apply NoDup_cons_iff in Hnd. destruct Hnd as [Ha Hnd].
    assert (E : guessed_letters (check_guess a g) =
                (guessed_letters g ++ [a])%list).
    { rewrite check_guess_letters.
      assert (Hf : list_in a (guessed_letters g) = false)
        by (apply list_in_false_iff, Hnew; now left).
      now rewrite Hf. }
    rewrite (IH (check_guess a g) Hnd).
    + rewrite E, <- app_assoc. reflexivity.
    + intros l Hl Hin. rewrite E in Hin. apply in_app_or in Hin.
      destruct Hin as [Hin | [<- | []]].
      * apply (Hnew l); [now right | assumption].
      * contradiction.
Qed.

Lemma wrong_letters_none (g : game) :
  (forall c, In c (guessed_letters g) -> str_in c (word g) = true) ->
  wrong_letters g = [].
Proof.
  unfold wrong_letters. induction (guessed_letters g) as [| a l IH]; intros H.
  - reflexivity.
  - simpl. rewrite (H a (or_introl eq_refl)). simpl.
    apply IH. intros c Hc. apply H. now right.
Qed.

Lemma wrong_letters_all (g : game) :
  (forall c, In c (guessed_letters g) -> str_in c (word g) = false) ->
  wrong_letters g = guessed_letters g.
Proof.
  unfold wrong_letters. induction (guessed_letters g) as [| a l IH]; intros H.
  - reflexivity.
  - simpl. rewrite (H a (or_introl eq_refl)). simpl. f_equal.
    apply IH. intros c Hc. apply H. now right.
Qed.

(** X6: every round on a non-empty word can be won with the full score:
    guessing the characters of the word in order, from the fresh round,
    ends it with all 6 attempts and the score 65. *)
Theorem round_is_winnable (w f : string) :
  w <> "" ->
  let g := guess_all (chars w) (fresh_round w f) in
  game_over g = true /\ word_complete g /\ attempts g = 6 /\ score g = 65.
Proof.
  intros Hw g.
  assert (Hr : in_round w f g) by (apply in_round_run; constructor).
  assert (Hword : word g = w) by apply run_word.
  assert (Hhint : hint_used g = false) by apply guess_all_hint_used.
  assert (Hc : word_complete g).
  { intros c Hin. rewrite Hword in Hin. now apply guess_all_records. }
  assert (Ha : attempts g = 6).
  { rewrite (round_attempts_spent w f g Hr), Hhint, wrong_letters_none.
    - reflexivity.
    - intros c Hin. apply guess_all_only in Hin.
      destruct Hin as [[] | Hin]. rewrite Hword. now apply char_str_in. }
  assert (Ho : game_over g = true).
  { destruct (exists_last (l := chars w)) as (cs & c & E).
    - destruct w; [congruence | discriminate].
    - subst g. revert Hc. rewrite E, guess_all_snoc. intros Hc.
      apply all_guessed_iff in Hc.
      rewrite check_guess_game_over, Hc, orb_true_r. reflexivity. }
  repeat split; try assumption.
  apply in_round_inv in Hr. rewrite (inv_over_score g Hr Ho); [| lia].
  unfold win_score. rewrite Ha, Hhint. reflexivity.
Qed.

Lemma round_is_winnable_witness :
  score (guess_all (chars "LETTER") (fresh_round "LETTER" "")) = 65.
Proof.
  apply (round_is_winnable "LETTER" ""). discriminate.
Defined.

(** X7: guessing distinct letters none of which is in a non-empty word, from
    the fresh round: all are recorded, each costs one attempt, the score
    stays 0, and the round is over exactly from the sixth on. *)
Theorem wrong_guesses_lose (w f : string) (ls : list string) :
  w <> "" ->
  NoDup ls ->
  (forall l, In l ls -> str_in l w = false) ->
  let g := guess_all ls (fresh_round w f) in
  guessed_letters g = ls /\
  attempts g = 6 - Z.of_nat (List.length ls) /\
  score g = 0 /\
  game_over g = (6 <=? List.length ls)%nat.
Proof.
  intros Hw Hnd Hwrong g.
  assert (Hr : in_round w f g) by (apply in_round_run; constructor).
  assert (Hword : word g = w) by apply run_word.
  assert (Hhint : hint_used g = false) by apply guess_all_hint_used.
  assert (Hl : guessed_letters g = ls)
    by (apply (guess_all_new_letters ls (fresh_round w f) Hnd); intros l _ []).
  assert (Ha : attempts g = 6 - Z.of_nat (List.length ls)).
  { rewrite (round_attempts_spent w f g Hr), Hhint, wrong_letters_all, Hl.
    - lia.
    - intros c Hin. rewrite Hword. apply Hwrong. now rewrite <- Hl. }
  assert (Hn : ~ word_complete g).
  { intros Hc. destruct w as [| a w']; [congruence |].
    assert (Hin : In (char_str a) (chars (word g)))
      by (rewrite Hword; now left).
    pose proof (Hc _ Hin) as Hg. rewrite Hl in Hg. apply Hwrong in Hg.
    rewrite Hword in Hin. apply char_str_in in Hin. congruence. }
  repeat split; try assumption.
  - now apply open_word_scores_nothing with (w := w) (f := f).
  - apply in_round_inv in Hr.
    destruct (6 <=? List.length ls)%nat eqn:E.
    + apply Nat.leb_le in E.
      destruct (game_over g) eqn:Ho; [reflexivity |].
      pose proof (inv_open_attempts g Hr Ho). lia.
    + apply Nat.leb_gt in E.
      destruct (game_over g) eqn:Ho; [| reflexivity].
      destruct (inv_over_end g Hr Ho) as [H | H]; [lia | contradiction].
Qed.

Lemma wrong_guesses_lose_witness :
  let g := guess_all ["X"; "Q"; "Z"; "J"; "W"; "V"; "K"] (fresh_round "CAT" "") in
  attempts g = -1 /\ score g = 0 /\ game_over g = true.
Proof.
  destruct (wrong_guesses_lose "CAT" "" ["X"; "Q"; "Z"; "J"; "W"; "V"; "K"])
    as (_ & Ha & Hs & Ho).
  - discriminate.
  - repeat constructor; simpl; intuition discriminate.
  - intros l Hl. simpl in Hl. decompose [or] Hl; subst; try reflexivity.
    contradiction.
  - cbv zeta. split; [exact Ha |]. split; [exact Hs | exact Ho].
Defined.

(** ** Guesses that are not one character *)

Lemma chars_length (c w : string) :
  In c (chars w) -> String.length c = 1%nat.
Proof.
  unfold chars. intros H. apply in_map_iff in H.
  destruct H as (a & <- & _). reflexivity.
Qed.

Lemma str_in_empty (s : string) : str_in "" s = true.
Proof. destruct s; reflexivity. Qed.

(** X8: a guess that is not exactly one character long never brings the word
    closer to complete, whether or not it is a substring of the word; the
    empty string, as a guess, costs nothing. *)
Theorem guess_not_one_character (letter : string) (g : game) :
  String.length letter <> 1%nat ->
  (word_complete (check_guess letter g) <-> word_complete g) /\
  (letter = "" -> attempts (check_guess letter g) = attempts g).
Proof.
  intros Hlen. split; [split |].
  - unfold word_complete. rewrite check_guess_word, check_guess_letters.
    intros H c Hc. specialize (H c Hc).
    destruct (list_in letter (guessed_letters g)); [assumption |].
    apply in_app_or in H. destruct H as [H | [<- | []]]; [assumption |].
    apply chars_length in Hc. contradiction.
  - apply check_guess_keeps_complete.
  - intros ->. rewrite check_guess_attempts, str_in_empty, orb_true_r.
    reflexivity.
Qed.

Lemma guess_not_one_character_witness :
  ~ word_complete (check_guess "CAT" (fresh_round "CAT" "")) /\
  attempts (check_guess "" (fresh_round "CAT" "")) = 6.
Proof.
  split.
  - intros H.
    apply (proj1 (guess_not_one_character "CAT" (fresh_round "CAT" "")
                    ltac:(discriminate))) in H.
    apply all_guessed_iff in H. discriminate.
  - apply (proj2 (guess_not_one_character "" (fresh_round "CAT" "")
                    ltac:(discriminate))).
    reflexivity.
Defined.

(** ** The empty word *)

(** X9: with the empty word, which is the word of the session before any
    [new_game], every guess ends the round at once, and with more than one
    attempt in hand it is scored as a win. *)
Theorem empty_word_ends_at_once (letter : string) (g : game) :
  word g = "" ->
  game_over (check_guess letter g) = true /\
  (1 < attempts g ->
   score (check_guess letter g) =
   attempts (check_guess letter g) * 10 + (if hint_used g then 0 else 5)).
Proof.
  intros Hw.
  assert (Hc : all_guessed (check_guess letter g) = true).
  { unfold all_guessed. rewrite check_guess_word, Hw. reflexivity. }
  split.
  - rewrite check_guess_game_over, Hc, orb_true_r. reflexivity.
  - intros Ha. pose proof (check_guess_attempts_ge letter g) as Hge.
    rewrite check_guess_score, Hc, orb_true_r.
    assert (Hp : (attempts (check_guess letter g) >? 0) = true)
      by (apply Z.gtb_lt; lia).
    rewrite Hp. unfold win_score. rewrite check_guess_hint_used.
    now destruct (hint_used g).
Qed.

Lemma empty_word_ends_at_once_witness :
  game_over (check_guess "E" initial_game) = true /\
  score (check_guess "E" initial_game) = 55.
Proof.
  destruct (empty_word_ends_at_once "E" initial_game eq_refl) as [Ho Hs].
  split; [exact Ho |]. rewrite Hs; [reflexivity | reflexivity].
Defined.

(** * Further properties of the hint provider *)

(** ** Requests, error messages and sleeps *)

Lemma retry_loop_counts (p : provider) (q : string) (n i : nat) :
  let t := snd (retry_loop p q i n) in
  slept t = 2 * Z.of_nat (errors_shown t) /\
  (requests t <= n)%nat /\
  (errors_shown t <= requests t <= S (errors_shown t))%nat.
Proof.
  revert i. induction n as [| n IH]; intros i.
  - simpl. lia.
  - rewrite retry_loop_S. destruct (p q i) as [c | e].
    + simpl. lia.
    + specialize (IH (S i)). cbv zeta in IH.
      cbv zeta. cbn [snd slept errors_shown requests]. lia.
Qed.

Lemma slept_app (t1 t2 : list event) : slept (t1 ++ t2) = slept t1 + slept t2.
Proof.
  induction t1 as [| e t1 IH]; [reflexivity |].
  destruct e; cbn [app slept]; rewrite IH; lia.
Qed.

Lemma errors_shown_app (t1 t2 : list event) :
  errors_shown (t1 ++ t2) = (errors_shown t1 + errors_shown t2)%nat.
Proof.
  induction t1 as [| e t1 IH]; [reflexivity |].
  destruct e; cbn [app errors_shown]; rewrite IH; reflexivity.
Qed.

Lemma failed_attempts_counts (q : string) (errs : list string) :
  errors_shown (failed_attempts q errs) = List.length errs /\
  slept (failed_attempts q errs) = 2 * Z.of_nat (List.length errs).
Proof.
  unfold failed_attempts. induction errs as [| e errs [IH1 IH2]]; [easy |].
  cbn [flat_map app errors_shown slept List.length].
  rewrite IH1, IH2. split; [reflexivity | lia].
Qed.

(** X10: whatever [max_retries] is, the log of [get_ai_content] is a run of
    failed attempts, each one a request followed by its error message and a
    sleep of 2 seconds, ended by one request that succeeds or, when
    [max_retries] attempts have failed, by nothing.  So every failed
    request, the last one included, shows one error and costs 2 seconds, at
    most [max_retries] requests are made, and with [max_retries <= 0]
    nothing is asked and the fallback is returned. *)
Theorem get_ai_content_budget (p : provider) (q : string) (max_retries : Z) :
  let r := get_ai_content p q max_retries in
  (exists errs tl,
     snd r = (failed_attempts q errs ++ tl)%list /\
     (forall k e, nth_error errs k = Some e -> p q k = Raised e) /\
     ((exists c, tl = [Request q] /\
                 (List.length errs < Z.to_nat max_retries)%nat /\
                 p q (List.length errs) = Completed c /\ fst r = strip c) \/
      (tl = [] /\ List.length errs = Z.to_nat max_retries /\
       fst r = fallback)) /\
     errors_shown (snd r) = List.length errs /\
     slept (snd r) = 2 * Z.of_nat (List.length errs) /\
     requests (snd r) = (List.length errs + List.length tl)%nat) /\
  (requests (snd r) <= Z.to_nat max_retries)%nat /\
  (max_retries <= 0 -> r = (fallback, [])).
Proof.
  intros r. unfold r, get_ai_content.
  destruct (retry_loop_shape p q (Z.to_nat max_retries) 0)
    as (errs & tl & Hlog & Herrs & Hend).
  cbn [Nat.add] in Herrs, Hend.
  destruct (failed_attempts_counts q errs) as [He Hs].
  assert (Htl : errors_shown tl = 0%nat /\ slept tl = 0 /\
                requests tl = List.length tl).
  { destruct Hend as [(c & -> & _) | (-> & _)]; repeat split. }
  destruct Htl as (Ht1 & Ht2 & Ht3).
  assert (Hreq : requests (snd (retry_loop p q 0 (Z.to_nat max_retries))) =
                 (List.length errs + List.length tl)%nat)
    by now rewrite Hlog, requests_app, requests_failed_attempts, Ht3.
  split; [| split].
  - exists errs, tl. repeat split; try assumption.
    + rewrite Hlog, errors_shown_app, He, Ht1. lia.
    + rewrite Hlog, slept_app, Hs, Ht2. lia.
  - rewrite Hreq.
    destruct Hend as [(c & -> & Hlen & _) | (-> & Hlen & _)]; simpl; lia.
  - intros Hle. replace (Z.to_nat max_retries) with 0%nat by lia. reflexivity.
Qed.

Lemma get_ai_content_budget_witness :
  get_ai_content good_service "q" (-1) = (fallback, []).
Proof.
  apply (get_ai_content_budget good_service "q" (-1)). lia.
Defined.

Lemma retry_loop_first_success (p : provider) (q : string) (c : string)
    (k : nat) :
  forall i n,
    (forall j, (j < k)%nat -> exists e, p q (i + j)%nat = Raised e) ->
    p q (i + k)%nat = Completed c ->
    (k < n)%nat ->
    fst (retry_loop p q i n) = strip c /\
    requests (snd (retry_loop p q i n)) = S k /\
    slept (snd (retry_loop p q i n)) = 2 * Z.of_nat k /\
    retry_loop p q i n = retry_loop p q i (S k).
Proof.
  induction k as [| k IH]; intros i n Hfail Hok Hlt.
  - destruct n as [| n]; [lia |].
    rewrite (retry_loop_S p q i n), (retry_loop_S p q i 0).
    rewrite Nat.add_0_r in Hok. rewrite Hok. repeat split.
  - destruct n as [| n]; [lia |].
    rewrite (retry_loop_S p q i n), (retry_loop_S p q i (S k)).
    destruct (Hfail 0%nat ltac:(lia)) as [e He].
    rewrite Nat.add_0_r in He. rewrite He.
    destruct (IH (S i) n) as (H1 & H2 & H3 & H4).
    + intros j Hj. destruct (Hfail (S j) ltac:(lia)) as [e' He'].
      exists e'. now rewrite Nat.add_succ_r in He'.
    + now rewrite Nat.add_succ_r in Hok.
    + lia.
    + cbn [fst snd requests slept]. rewrite H1, H2, H3.
      repeat split; [lia | now rewrite <- H4, H1].
Qed.

(** X11: when the first [k] attempts fail and the next one answers, within the
    retries allowed, [get_ai_content] returns that answer stripped, after
    [k + 1] requests and [2 * k] seconds of sleep; allowing more retries
    changes neither the result nor the log. *)
Theorem get_ai_content_first_success (p : provider) (q c : string)
    (k : nat) (max_retries : Z) :
  (forall j, (j < k)%nat -> exists e, p q j = Raised e) ->
  p q k = Completed c ->
  Z.of_nat k < max_retries ->
  let r := get_ai_content p q max_retries in
  fst r = strip c /\
  requests (snd r) = S k /\
  slept (snd r) = 2 * Z.of_nat k /\
  forall more, max_retries <= more -> get_ai_content p q more = r.
Proof.
  intros Hfail Hok Hlt r. unfold r, get_ai_content.
  destruct (retry_loop_first_success p q c k 0 (Z.to_nat max_retries))
    as (H1 & H2 & H3 & H4); try assumption; [lia |].
  repeat split; try assumption.
  intros more Hmore.
  destruct (retry_loop_first_success p q c k 0 (Z.to_nat more))
    as (_ & _ & _ & H5); try assumption; [lia |].
  now rewrite H4, H5.
Qed.

Lemma get_ai_content_first_success_witness :
  fst (get_ai_content slow_service "q" 3) = "A pet." /\
  requests (snd (get_ai_content slow_service "q" 3)) = 3%nat /\
  get_ai_content slow_service "q" 10 = get_ai_content slow_service "q" 3.
Proof.
  destruct (get_ai_content_first_success slow_service "q" "A pet." 2 3)
    as (H1 & H2 & _ & H4).
  - intros [| [| j]] Hj; [now exists "rate limit" .. | lia].
  - reflexivity.
  - lia.
  - cbv zeta in *. split; [exact H1 |]. split; [exact H2 |].
    apply H4. lia.
Defined.

(** ** The text that comes back *)

Lemma head_space_lstrip (s : string) : head_space (lstrip s) = false.
Proof.
  induction s as [| a s IH]; simpl; [reflexivity |].
  destruct (is_space a) eqn:E; [assumption | simpl; assumption].
Qed.

Lemma last_space_rstrip (s : string) : last_space (rstrip s) = false.
Proof.
  induction s as [| a s IH]; [reflexivity |].
  cbn [rstrip]. destruct (rstrip s) as [| b r].
  - destruct (is_space a) eqn:E; [reflexivity | simpl; assumption].
  - exact IH.
Qed.

Lemma head_space_rstrip (s : string) :
  head_space s = false -> head_space (rstrip s) = false.
Proof.
  destruct s as [| a s]; [reflexivity |]. cbn [rstrip head_space]. intros E.
  destruct (rstrip s); [rewrite E |]; simpl; assumption.
Qed.

Lemma strip_trimmed (s : string) :
  head_space (strip s) = false /\ last_space (strip s) = false.
Proof.
  unfold strip. split.
  - apply head_space_rstrip, head_space_lstrip.
  - apply last_space_rstrip.
Qed.

Lemma retry_loop_result (p : provider) (q : string) (n i : nat) :
  fst (retry_loop p q i n) = fallback \/
  exists c, fst (retry_loop p q i n) = strip c.
Proof.
  revert i. induction n as [| n IH]; intros i; [now left |].
  rewrite retry_loop_S. destruct (p q i) as [c | e].
  - right. now exists c.
  - apply IH.
Qed.

(** X12: the text [get_ai_content] returns never begins or ends with a
    whitespace character, whatever the service answers. *)
Theorem get_ai_content_trimmed (p : provider) (q : string) (max_retries : Z) :
  head_space (fst (get_ai_content p q max_retries)) = false /\
  last_space (fst (get_ai_content p q max_retries)) = false.
Proof.
  unfold get_ai_content.
  destruct (retry_loop_result p q (Z.to_nat max_retries) 0) as [-> | [c ->]].
  - split; reflexivity.
  - apply strip_trimmed.
Qed.

(** ** The prompts that go out *)

Lemma prompts_retry_loop (p : provider) (q : string) (n i : nat) (x : string) :
  In x (prompts (snd (retry_loop p q i n))) -> x = q.
Proof.
  revert i. induction n as [| n IH]; intros i; [intros [] |].
  rewrite retry_loop_S. destruct (p q i) as [c | e]; cbn [snd prompts].
  - intros [<- | []]. reflexivity.
  - intros [<- | H]; [reflexivity | now apply (IH (S i))].
Qed.

Lemma prefix_append (w b : string) : String.prefix w (w ++ b) = true.
Proof.
  induction w as [| a w IH]; simpl.
  - now destruct b.
  - destruct (ascii_dec a a); [assumption | congruence].
Qed.

Lemma str_in_prefix (w s : string) :
  String.prefix w s = true -> str_in w s = true.
Proof. intros H. destruct s; cbn [str_in]; now rewrite H. Qed.

Lemma str_in_append (w a b : string) : str_in w (a ++ w ++ b) = true.
Proof.
  induction a as [| x a IH].
  - cbn [append]. apply str_in_prefix, prefix_append.
  - cbn [append str_in]. rewrite IH. apply orb_true_r.
Qed.

(** X13: every request made for a hint or for a fun fact carries the word of the
    game verbatim in its prompt. *)
Theorem prompts_carry_word (p : provider) (g : game) (q : string) :
  In q (prompts (snd (get_ai_hint p g))) \/
  In q (prompts (snd (get_fun_fact p g))) ->
  str_in (word g) q = true.
Proof.
  unfold get_ai_hint, get_fun_fact, get_ai_content.
  intros [H | H]; apply prompts_retry_loop in H; subst q; apply str_in_append.
Qed.

Lemma prompts_carry_word_witness :
  str_in "CAT" "Give a subtle hint about CAT without revealing it. Max 10 words."
  = true.
Proof.
  apply (prompts_carry_word good_service (fresh_round "CAT" "")).
  left. simpl. now left.
Defined.

(** ** Hints and the service *)

Lemma show_hint_section_bought (p : provider) (g : game) :
  game_over g = false -> hint_used g = false -> 2 < attempts g ->
  let g' := set_hint_used true (set_attempts (attempts g - 2) g) in
  show_hint_section p true g =
  (g', (snd (get_ai_hint p g') ++ [StInfo ("Hint: " ++ fst (get_ai_hint p g'))])%list).
Proof.
  intros Ho Hh Ha g'. unfold show_hint_section.
  apply Z.gtb_lt in Ha. rewrite Ho, Hh, Ha. cbn [negb andb].
  fold g'. unfold bind, emit, ret.
  destruct (get_ai_hint p g') as [h t]. reflexivity.
Qed.

Lemma retry_loop_all_fail (p : provider) (q : string) (n i : nat) :
  (forall j, (j < n)%nat -> exists e, p q (i + j)%nat = Raised e) ->
  fst (retry_loop p q i n) = fallback /\
  requests (snd (retry_loop p q i n)) = n /\
  slept (snd (retry_loop p q i n)) = 2 * Z.of_nat n.
Proof.
  revert i. induction n as [| n IH]; intros i H; [repeat split |].
  rewrite retry_loop_S.
  destruct (H 0%nat ltac:(lia)) as [e He].
  rewrite Nat.add_0_r in He. rewrite He.
  destruct (IH (S i)) as (H1 & H2 & H3).
  - intros j Hj. destruct (H (S j) ltac:(lia)) as [e' He'].
    exists e'. now rewrite Nat.add_succ_r in He'.
  - cbn [fst snd requests slept]. rewrite H1, H2, H3. repeat split. lia.
Qed.

(** X14: a hint bought while the service is down is paid for all the same: the
    2 attempts are taken, [hint_used] is set, and after 3 requests and 6
    seconds of sleep the fallback text is shown as the hint. *)
Theorem hint_paid_when_service_down (p : provider) (g : game) :
  game_over g = false ->
  hint_used g = false ->
  2 < attempts g ->
  (forall q i, exists e, p q i = Raised e) ->
  let r := show_hint_section p true g in
  attempts (fst r) = attempts g - 2 /\
  hint_used (fst r) = true /\
  exists t, snd r = (t ++ [StInfo ("Hint: " ++ fallback)])%list /\
            requests t = 3%nat /\ slept t = 6.
Proof.
  intros Ho Hh Ha Hdown r. unfold r.
  rewrite (show_hint_section_bought p g Ho Hh Ha). cbn [fst snd].
  repeat split.
  set (g' := set_hint_used true (set_attempts (attempts g - 2) g)).
  unfold get_ai_hint, get_ai_content. change (Z.to_nat 3) with 3%nat.
  match goal with
  | |- context [retry_loop p ?q 0 3] =>
      destruct (retry_loop_all_fail p q 3 0) as (H1 & H2 & H3);
        [intros j _; apply Hdown |];
        exists (snd (retry_loop p q 0 3)); rewrite H1
  end.
  repeat split; assumption.
Qed.

Lemma hint_paid_when_service_down_witness :
  let r := show_hint_section no_service true (fresh_round "CAT" "") in
  attempts (fst r) = 4 /\ hint_used (fst r) = true.
Proof.
  destruct (hint_paid_when_service_down no_service (fresh_round "CAT" ""))
    as (Ha & Hh & _); try reflexivity.
  - intros q i. now exists "offline".
  - cbv zeta. split; [exact Ha | exact Hh].
Defined.

(** X15: [show_hint_section] makes at most 3 requests, and when it leaves the
    state as it was it has made no request and has not slept. *)
Theorem hint_requests_only_on_purchase (p : provider) (clicked : bool)
    (g : game) :
  let r := show_hint_section p clicked g in
  (requests (snd r) <= 3)%nat /\
  (fst r = g -> requests (snd r) = 0%nat /\ slept (snd r) = 0).
Proof.
  cbv zeta.
  destruct (game_over g) eqn:Ho;
    [rewrite show_hint_section_closed by (now left); simpl; split; [lia | easy] |].
  destruct (hint_used g) eqn:Hh;
    [rewrite show_hint_section_closed by (now right); simpl; split; [lia | easy] |].
  destruct clicked;
    [| unfold show_hint_section; rewrite Ho, Hh; simpl; split; [lia | easy]].
  destruct (Z_lt_le_dec 2 (attempts g)) as [Ha | Ha].
  - rewrite (show_hint_section_bought p g Ho Hh Ha). cbn [fst snd]. split.
    + rewrite requests_app, Nat.add_0_r. unfold get_ai_hint, get_ai_content.
      apply retry_loop_counts.
    + intros E. apply (f_equal hint_used) in E. simpl in E. congruence.
  - unfold show_hint_section. rewrite Ho, Hh. cbn [negb andb].
    destruct (attempts g >? 2) eqn:E; [apply Z.gtb_lt in E; lia |].
    simpl. split; [lia | easy].
Qed.

Lemma hint_requests_only_on_purchase_witness :
  requests (snd (show_hint_section good_service true
                   (set_attempts 2 (fresh_round "CAT" "")))) = 0%nat.
Proof.
  apply (hint_requests_only_on_purchase good_service true
           (set_attempts 2 (fresh_round "CAT" ""))).
  reflexivity.
Defined.

(** ** Starting a round *)

(** X16: [new_game] asks for the fun fact of the word of the game it replaces,
    not of the new word: its requests and the fact it stores are the same
    whatever the new word is.  Apart from the fact, the new state owes
    nothing to the old one. *)
Theorem new_game_fact_of_replaced_word (w : string) (p : provider) (old : game) :
  let r := new_game w p old in
  (forall q, In q (prompts (snd r)) ->
     q = "Tell an interesting fact about " ++ word old ++ " in 15 words or less.") /\
  (forall w', fun_fact (fst (new_game w' p old)) = fun_fact (fst r) /\
              snd (new_game w' p old) = snd r) /\
  fst r = fresh_round w (fun_fact (fst r)).
Proof.
  cbv zeta. unfold new_game, bind, ret.
  pose proof (fun q => prompts_retry_loop p
    ("Tell an interesting fact about " ++ word old ++ " in 15 words or less.")
    3 0 q) as Hq.
  unfold get_fun_fact, get_ai_content in *. change (Z.to_nat 3) with 3%nat.
  destruct (retry_loop p _ 0 3) as [x t]. cbn [fst snd] in *.
  rewrite app_nil_r. repeat split. assumption.
Qed.

Lemma new_game_fact_of_replaced_word_witness :
  fun_fact (fst (new_game "DOG" slow_service (fresh_round "CAT" ""))) =
  fun_fact (fst (new_game "BIRD" slow_service (fresh_round "CAT" ""))) /\
  fst (new_game "BIRD" slow_service (fresh_round "CAT" "")) =
  fresh_round "BIRD" "A pet.".
Proof.
  destruct (new_game_fact_of_replaced_word "BIRD" slow_service
              (fresh_round "CAT" "")) as (_ & H & E).
  split; [apply (H "DOG") | exact E].
Defined.

(** * Further properties of the score store and the final screen *)

(** ** A read that succeeds *)

Lemma collect_ok (s : doc_stream) :
  stream_raises s = false -> collect s = inr (yielded s).
Proof.
  induction s as [| d rest IH | e]; simpl; intros H.
  - reflexivity.
  - now rewrite (IH H).
  - discriminate.
Qed.

Lemma stream_of_ends (docs : list score_entry) :
  stream_raises (stream_of docs) = false /\ yielded (stream_of docs) = docs.
Proof.
  induction docs as [| d docs [IH1 IH2]]; simpl; [easy |].
  now rewrite IH2.
Qed.

Lemma get_leaderboard_cases (db : store) (limit : Z) :
  (read_fails db limit = true /\
   exists e, get_leaderboard db limit =
             ([], [StError ("Leaderboard error: " ++ e)])) \/
  (read_fails db limit = false /\
   exists s, db limit = QueryStream s /\
             get_leaderboard db limit = (yielded s, [])).
Proof.
  unfold get_leaderboard, read_scores, read_fails.
  destruct (db limit) as [e | s].
  - left. split; [reflexivity | now exists e].
  - destruct (stream_raises s) eqn:E.
    + left. split; [reflexivity |].
      destruct (collect_raises s E) as [e ->]. now exists e.
    + right. split; [reflexivity |]. exists s.
      now rewrite (collect_ok s E).
Qed.

(** X17: [get_leaderboard] shows no message exactly when the read succeeds, and
    then returns the documents of the query in the order they came: a
    store that yields [docs] and ends gives back [docs]. *)
Theorem get_leaderboard_success (db : store) (limit : Z) :
  (snd (get_leaderboard db limit) = [] <-> read_fails db limit = false) /\
  (forall docs, db limit = QueryStream (stream_of docs) ->
                get_leaderboard db limit = (docs, [])).
Proof.
  split.
  - destruct (get_leaderboard_cases db limit)
      as [(Hf & e & ->) | (Hf & s & _ & ->)]; rewrite Hf; simpl;
      split; congruence.
  - intros docs E. destruct (stream_of_ends docs) as [H1 H2].
    unfold get_leaderboard, read_scores. rewrite E, (collect_ok _ H1), H2.
    reflexivity.
Qed.

Lemma get_leaderboard_success_witness :
  get_leaderboard two_scores 10 =
  ([mkEntry "ann" 65 2; mkEntry "bob" 40 1], []).
Proof.
  apply (proj2 (get_leaderboard_success two_scores 10)). reflexivity.
Defined.

(** ** Saving a score *)

Lemma substring_first (n : nat) (s : string) :
  (String.length (substring 0 n s) <= n)%nat /\
  String.prefix (substring 0 n s) s = true /\
  ((String.length s <= n)%nat -> substring 0 n s = s).
Proof.
  revert s. induction n as [| n IH]; intros s.
  - destruct s as [| a s]; cbn [substring String.length prefix].
    + split; [lia | split; [reflexivity | reflexivity]].
    + split; [lia | split; [reflexivity | lia]].
  - destruct s as [| a s];
      [cbn [substring String.length prefix];
       split; [lia | split; reflexivity] |].
    destruct (IH s) as (H1 & H2 & H3).
    cbn [substring String.length prefix]. repeat split.
    + lia.
    + destruct (ascii_dec a a); [assumption | congruence].
    + intros H. f_equal. apply H3. lia.
Qed.

(** X18: what [save_score] writes: the score as given, under the name cut to
    its first 15 characters (a name of at most 15 characters is kept
    whole), and the cache is cleared after the write. *)
Theorem save_score_truncates (w : writer) (name : string) (points : Z)
    (n : string) (s : Z) :
  In (Saved n s) (save_score w name points) ->
  s = points /\
  (String.length n <= 15)%nat /\
  String.prefix n name = true /\
  ((String.length name <= 15)%nat -> n = name) /\
  save_score w name points = [Saved n s; CacheCleared].
Proof.
  unfold save_score. destruct (substring_first 15 name) as (H1 & H2 & H3).
  destruct (w (substring 0 15 name) points) as [| e].
  - intros [H | [H | []]]; [| discriminate].
    injection H as <- <-. repeat split; assumption.
  - intros [H | []]. discriminate.
Qed.

Lemma save_score_truncates_witness :
  save_score good_writer "A very long player name" 65 =
  [Saved "A very long pla" 65; CacheCleared].
Proof.
  apply (save_score_truncates good_writer "A very long player name" 65).
  simpl. now left.
Defined.

(** ** The end-of-round screen *)

Lemma score_lines_only (r : nat) (l : list score_entry) (x : action) :
  In x (score_lines r l) -> exists k n s, x = ScoreLine k n s.
Proof.
  revert r. induction l as [| d l IH]; intros r; [intros [] |].
  intros [<- | H]; [now eexists _, _, _ | now apply (IH (S r))].
Qed.

Lemma score_lines_nth (r : nat) (l : list score_entry) (k : nat)
    (d : score_entry) :
  nth_error l k = Some d ->
  nth_error (score_lines r l) k =
  Some (ScoreLine (r + k) (entry_name d) (entry_score d)).
Proof.
  revert r k. induction l as [| d0 l IH]; intros r [| k] H;
    try discriminate; simpl in *.
  - injection H as ->. now rewrite Nat.add_0_r.
  - rewrite (IH (S r) k H). now rewrite Nat.add_succ_r.
Qed.

Lemma column_cases (db : store) :
  (exists e, fst (get_leaderboard db 10) = [] /\
             show_leaderboard_column db =
             [Logged (StError ("Leaderboard error: " ++ e)); NoScores]) \/
  (fst (get_leaderboard db 10) = [] /\ show_leaderboard_column db = [NoScores]) \/
  (fst (get_leaderboard db 10) <> [] /\
   show_leaderboard_column db = score_lines 1 (fst (get_leaderboard db 10))).
Proof.
  unfold show_leaderboard_column.
  destruct (get_leaderboard_cases db 10)
    as [(_ & e & ->) | (_ & s & _ & ->)]; cbn [fst map app].
  - left. now exists e.
  - right. destruct (yielded s); [now left | right; split; [discriminate | easy]].
Qed.

(** X19: the leaderboard column lists the entries read, in order, numbered from
    1; "No scores yet!" appears exactly when the list read is empty, and a
    failed read shows the error message followed by "No scores yet!". *)
Theorem leaderboard_column_lines (db : store) :
  let board := fst (get_leaderboard db 10) in
  (forall k d, nth_error board k = Some d ->
     nth_error (show_leaderboard_column db) k =
     Some (ScoreLine (S k) (entry_name d) (entry_score d))) /\
  (In NoScores (show_leaderboard_column db) <-> board = []) /\
  (read_fails db 10 = true ->
   exists e, show_leaderboard_column db =
             [Logged (StError ("Leaderboard error: " ++ e)); NoScores]).
Proof.
  cbv zeta. split; [| split].
  - intros k d H.
    destruct (column_cases db) as [(e & E & _) | [(E & _) | (_ & ->)]];
      try (rewrite E in H; destruct k; discriminate).
    now apply (score_lines_nth 1).
  - destruct (column_cases db) as [(e & E & ->) | [(E & ->) | (E & ->)]].
    + split; [easy | intros _; right; now left].
    + split; [easy | intros _; now left].
    + split; [| contradiction].
      intros H. apply score_lines_only in H.
      destruct H as (k & n & s & H). discriminate.
  - intros Hf. unfold show_leaderboard_column.
    destruct (get_leaderboard_cases db 10)
      as [(_ & e & ->) | (Hn & _)]; [now exists e | congruence].
Qed.

Lemma leaderboard_column_lines_witness :
  nth_error (show_leaderboard_column two_scores) 1 = Some (ScoreLine 2 "bob" 40) /\
  show_leaderboard_column flaky_store =
  [Logged (StError "Leaderboard error: deadline exceeded"); NoScores].
Proof.
  destruct (leaderboard_column_lines two_scores) as (H & _).
  destruct (leaderboard_column_lines flaky_store) as (_ & _ & Hf).
  split.
  - apply (H 1%nat (mkEntry "bob" 40 1)). reflexivity.
  - destruct (Hf eq_refl) as [e He]. rewrite He. vm_compute in He.
    injection He as <-. reflexivity.
Defined.

Lemma column_items (db : store) (x : action) :
  In x (show_leaderboard_column db) ->
  x = NoScores \/ (exists e, x = Logged e) \/ exists k n s, x = ScoreLine k n s.
Proof.
  destruct (column_cases db) as [(e & _ & ->) | [(_ & ->) | (_ & ->)]].
  - intros [<- | [<- | []]]; [right; left; eauto | now left].
  - intros [<- | []]. now left.
  - intros H. right. right. now apply score_lines_only in H.
Qed.

Lemma screen_items (wr : writer) (db : store) (name : string) (submit : bool)
    (g : game) (x : action) :
  In x (show_game_over wr db name submit g) ->
  (0 < attempts g /\
   (x = Balloons \/ x = WonBanner (score g) \/ x = NameInput \/
    (submit = true /\ name <> "" /\ In x (save_score wr name (score g))))) \/
  (attempts g <= 0 /\
   (x = LostBanner (word g) \/ x = FunFactLine (fun_fact g))) \/
  x = LeaderboardHeader \/ x = NoScores \/ (exists e, x = Logged e) \/
  exists k n s, x = ScoreLine k n s.
Proof.
  unfold show_game_over. intros H. apply in_app_or in H.
  destruct H as [H | [<- | H]].
  - destruct (attempts g >? 0) eqn:Ha.
    + apply Z.gtb_lt in Ha. left. split; [assumption |].
      destruct H as [<- | [<- | [<- | H]]]; [tauto .. |].
      destruct submit; [| destruct H].
      destruct (name =? "")%string eqn:En; [destruct H |].
      apply String.eqb_neq in En. tauto.
    + right. left. split.
      * destruct (Z_lt_le_dec 0 (attempts g)) as [L | L]; [| assumption].
        apply Z.gtb_lt in L. congruence.
      * destruct H as [<- | [<- | []]]; tauto.
  - tauto.
  - apply column_items in H. tauto.
Qed.

Lemma won_round_score (w0 f : string) (g : game) :
  in_round w0 f g -> game_over g = true -> 0 < attempts g ->
  word_complete g /\
  score g = attempts g * 10 + (if hint_used g then 0 else 5) /\
  10 <= score g <= 65.
Proof.
  intros Hr Ho Ha.
  pose proof (round_attempts_cap w0 f g Hr) as Hcap.
  apply in_round_inv in Hr.
  assert (Hs : score g = attempts g * 10 + (if hint_used g then 0 else 5)).
  { rewrite (inv_over_score g Hr Ho Ha). unfold win_score.
    now destruct (hint_used g). }
  split; [| split; [assumption |]].
  - destruct (inv_over_end g Hr Ho) as [H | H]; [lia | assumption].
  - rewrite Hs. destruct (hint_used g); lia.
Qed.

(** X20: on the screen of a round that is over, a score is written to the store
    only when attempts are left, the button was pressed and the name is not
    empty; the word is then complete, and what is written is the score of
    the game, by the win formula between 10 and 65, under the name cut to 15
    characters. *)
Theorem score_submission (w0 f : string) (g : game) (wr : writer) (db : store)
    (name : string) (submit : bool) (n : string) (s : Z) :
  in_round w0 f g ->
  game_over g = true ->
  In (Saved n s) (show_game_over wr db name submit g) ->
  submit = true /\ name <> "" /\ 0 < attempts g /\ word_complete g /\
  s = score g /\
  s = attempts g * 10 + (if hint_used g then 0 else 5) /\
  10 <= s <= 65 /\
  n = substring 0 15 name.
Proof.
  intros Hr Ho H. apply screen_items in H.
  destruct H as [(Ha & H) | [(_ & [H | H]) | [H | [H | [[e H] | (k & a & b & H)]]]]];
    try discriminate.
  destruct H as [H | [H | [H | (Hs & Hn & H)]]]; try discriminate.
  destruct (won_round_score w0 f g Hr Ho Ha) as (Hc & Hf & Hb).
  unfold save_score in H.
  destruct (wr (substring 0 15 name) (score g));
    [destruct H as [H | [H | []]] | destruct H as [H | []]]; try discriminate.
  injection H as <- <-. repeat split; try assumption; lia.
Qed.

Lemma score_submission_witness :
  let g := guess_all ["C"; "X"; "A"; "T"] (fresh_round "CAT" "") in
  In (Saved "A very long pla" 55)
     (show_game_over good_writer two_scores "A very long player name" true g) /\
  word_complete g.
Proof.
  set (g := guess_all ["C"; "X"; "A"; "T"] (fresh_round "CAT" "")).
  assert (Hin : In (Saved "A very long pla" 55)
                   (show_game_over good_writer two_scores
                      "A very long player name" true g))
    by (vm_compute; tauto).
  cbv zeta. split; [exact Hin |].
  apply (score_submission "CAT" "" g good_writer two_scores
           "A very long player name" true "A very long pla" 55).
  - apply in_round_run. constructor.
  - reflexivity.
  - exact Hin.
Defined.

(** X21: the banner of the final screen is chosen by the attempts alone.  In a
    round that is over, the winning banner is shown only for a complete
    word and carries the win formula's score; the losing banner is shown
    exactly when no attempt is left, names the word and comes with the fun
    fact, even if the word had been completed. *)
Theorem final_screen_banner (w0 f : string) (g : game) (wr : writer)
    (db : store) (name : string) (submit : bool) :
  in_round w0 f g ->
  game_over g = true ->
  let screen := show_game_over wr db name submit g in
  (forall x, In (WonBanner x) screen ->
     0 < attempts g /\ word_complete g /\
     x = attempts g * 10 + (if hint_used g then 0 else 5)) /\
  (forall x, In (LostBanner x) screen -> attempts g <= 0 /\ x = word g) /\
  (attempts g <= 0 ->
   In (LostBanner (word g)) screen /\ In (FunFactLine (fun_fact g)) screen) /\
  (0 < attempts g -> In (WonBanner (score g)) screen).
Proof.
  intros Hr Ho screen. unfold screen. repeat apply conj.
  - intros x H. apply screen_items in H.
    destruct H as [(Ha & H) | [(_ & [H | H]) | [H | [H | [[e H] | (k & a & b & H)]]]]];
      try discriminate.
    destruct (won_round_score w0 f g Hr Ho Ha) as (Hc & Hf & _).
    destruct H as [H | [H | [H | (_ & _ & H)]]]; try discriminate.
    + injection H as ->. auto.
    + unfold save_score in H.
      destruct (wr _ _);
        [destruct H as [H | [H | []]] | destruct H as [H | []]];
        discriminate.
  - intros x H. apply screen_items in H.
    destruct H as [(Ha & H) | [(Ha & [H | H]) | [H | [H | [[e H] | (k & a & b & H)]]]]];
      try discriminate.
    + destruct H as [H | [H | [H | (_ & _ & H)]]]; try discriminate.
      unfold save_score in H.
      destruct (wr _ _);
        [destruct H as [H | [H | []]] | destruct H as [H | []]];
        discriminate.
    + injection H as ->. auto.
  - intros Ha. unfold show_game_over.
    destruct (attempts g >? 0) eqn:E; [apply Z.gtb_lt in E; lia |].
    split; apply in_or_app; left; simpl; tauto.
  - intros Ha. unfold show_game_over. apply Z.gtb_lt in Ha. rewrite Ha.
    apply in_or_app. left. simpl. tauto.
Qed.

Lemma final_screen_banner_witness :
  let g := guess_all ["C"; "A"; "T"; "X"; "Q"; "Z"; "J"; "W"; "V"]
                     (fresh_round "CAT" "felines") in
  In (LostBanner "CAT") (show_game_over good_writer two_scores "ann" true g) /\
  In (FunFactLine "felines")
     (show_game_over good_writer two_scores "ann" true g) /\
  word_complete g.
Proof.
  set (g := guess_all ["C"; "A"; "T"; "X"; "Q"; "Z"; "J"; "W"; "V"]
                      (fresh_round "CAT" "felines")).
  destruct (final_screen_banner "CAT" "felines" g good_writer two_scores
              "ann" true) as (_ & _ & H & _).
  - apply in_round_run. constructor.
  - reflexivity.
  - destruct H as [H1 H2]; [vm_compute; discriminate |].
    cbv zeta. split; [exact H1 |]. split; [exact H2 |].
    apply all_guessed_iff. reflexivity.
Defined.
